(** * libmetal [lib/utilities.h]: the bitmap helpers and [metal_log2]

    A shallow embedding of the bitmap part of [utilities.h] and the
    properties its description states about it.

    C integers are modelled as [Z] with every conversion and wrap-around
    written out.  The bitmap storage ([unsigned long *]) is a [list Z] of
    words read with stdpp's lookup and written with stdpp's insert; an access
    outside the list is undefined behaviour in C and is an explicit outcome
    here. *)

From Stdlib Require Import ZArith Lia Bool List.
From stdpp Require Import base tactics option list.

Local Open Scope Z_scope.

(** ** Data models

    [METAL_BITS_PER_ULONG] is [8 * sizeof(unsigned long)], the functions take
    and return [int] and [unsigned int], and [sizeof] has type [size_t]: the
    widths of these three types are what the code depends on.  The three
    data models libmetal is built for: *)

Inductive data_model : Type :=
| ILP32   (* int, long and size_t of 32 bits: 32-bit Linux, Cortex-R/M *)
| LLP64   (* int and long of 32 bits, size_t of 64 bits: 64-bit Windows *)
| LP64.   (* int of 32 bits, long and size_t of 64 bits: 64-bit Linux *)

Definition sizeof_int (dm : data_model) : Z := 4.

Definition sizeof_unsigned_long (dm : data_model) : Z :=
  match dm with
  | LP64 => 8
  | ILP32 | LLP64 => 4
  end.

Definition sizeof_size_t (dm : data_model) : Z :=
  match dm with
  | ILP32 => 4
  | LLP64 | LP64 => 8
  end.

Definition int_bits (dm : data_model) : Z := 8 * sizeof_int dm.
Definition ulong_bits (dm : data_model) : Z := 8 * sizeof_unsigned_long dm.
Definition size_bits (dm : data_model) : Z := 8 * sizeof_size_t dm.

(** Conversion to an unsigned type of [bits] bits: reduction modulo
    [2^bits] (C99 6.3.1.3p2); unsigned arithmetic wraps the same way. *)
Definition wrap (bits z : Z) : Z := z mod 2 ^ bits.

(** Conversion to a signed type of [bits] bits.  For a value out of range the
    result is implementation-defined (C99 6.3.1.3p3); GCC, Clang and MSVC
    all reduce modulo [2^bits] into the two's complement range, which is
    what is modelled. *)
Definition swrap (bits z : Z) : Z :=
  (z + 2 ^ (bits - 1)) mod 2 ^ bits - 2 ^ (bits - 1).

Definition to_int (dm : data_model) (z : Z) : Z := swrap (int_bits dm) z.
Definition to_uint (dm : data_model) (z : Z) : Z := wrap (int_bits dm) z.
Definition to_ulong (dm : data_model) (z : Z) : Z := wrap (ulong_bits dm) z.
Definition to_size_t (dm : data_model) (z : Z) : Z := wrap (size_bits dm) z.

Definition INT_MAX (dm : data_model) : Z := 2 ^ (int_bits dm - 1) - 1.
Definition UINT_MAX (dm : data_model) : Z := 2 ^ int_bits dm - 1.
Definition ULONG_MAX (dm : data_model) : Z := 2 ^ ulong_bits dm - 1.
Definition SIZE_MAX (dm : data_model) : Z := 2 ^ size_bits dm - 1.

(** ** Outcomes of a C computation *)

Inductive outcome (A : Type) : Type :=
| Returns (a : A)   (* the call returns [a] *)
| Undefined         (* undefined behaviour: access outside the storage,
                       shift by the width of the type or more *)
| AssertFailed      (* [assert] aborted the program *)
| OutOfFuel.        (* the model's iteration budget ran out *)

Arguments Returns {A} a.
Arguments Undefined {A}.
Arguments AssertFailed {A}.
Arguments OutOfFuel {A}.

#[global] Instance outcome_ret : MRet outcome := fun A a => Returns a.

#[global] Instance outcome_bind : MBind outcome := fun A B f m =>
  match m with
  | Returns a => f a
  | Undefined => Undefined
  | AssertFailed => AssertFailed
  | OutOfFuel => OutOfFuel
  end.

(** ** Arithmetic macros *)

(** [#define metal_div_round_down(num, den) ((num) / (den))], on operands
    of type [size_t]. *)
Definition metal_div_round_down (num den : Z) : Z := num / den.

(** [#define metal_div_round_up(num, den)
       metal_div_round_down((num) + (den) - 1, (den))]
    with [den] of type [size_t] and [num] of a type no wider: the sum and
    the difference are computed in [size_t] and wrap. *)
Definition metal_div_round_up (dm : data_model) (num den : Z) : Z :=
  metal_div_round_down (to_size_t dm (to_size_t dm (num + den) - 1)) den.

(** [#define METAL_BITS_PER_ULONG (8 * sizeof(unsigned long))] *)
Definition METAL_BITS_PER_ULONG (dm : data_model) : Z :=
  to_size_t dm (8 * sizeof_unsigned_long dm).

(** [#define metal_bit(bit) (1UL << (bit))]: a shift of an [unsigned long];
    a count of the width or more is undefined (C99 6.5.7p3). *)
Definition metal_bit (dm : data_model) (bit : Z) : outcome Z :=
  if (0 <=? bit) && (bit <? ulong_bits dm)
  then Returns (to_ulong dm (Z.shiftl 1 bit))
  else Undefined.

(** [#define metal_bitmap_longs(x)
       metal_div_round_up((x), METAL_BITS_PER_ULONG)] *)
Definition metal_bitmap_longs (dm : data_model) (x : Z) : Z :=
  metal_div_round_up dm x (METAL_BITS_PER_ULONG dm).

(** ** Bitmap storage *)

(** [bitmap[idx]] as an rvalue. *)
Definition load (bitmap : list Z) (idx : Z) : outcome Z :=
  match bitmap !! Z.to_nat idx with
  | Some w => Returns w
  | None => Undefined
  end.

(** [bitmap[idx] = w]. *)
Definition store (bitmap : list Z) (idx w : Z) : outcome (list Z) :=
  if decide (Z.to_nat idx < length bitmap)%nat
  then Returns (<[Z.to_nat idx := w]> bitmap)
  else Undefined.

(** The word index [bit / METAL_BITS_PER_ULONG] and the position
    [bit & (METAL_BITS_PER_ULONG - 1)] of an [int bit]: the other operand is
    a [size_t], so [bit] is converted to [size_t] first and both are computed
    unsigned. *)
Definition word_index (dm : data_model) (bit : Z) : Z :=
  to_size_t dm bit / METAL_BITS_PER_ULONG dm.

Definition bit_position (dm : data_model) (bit : Z) : Z :=
  Z.land (to_size_t dm bit) (to_size_t dm (METAL_BITS_PER_ULONG dm - 1)).

(** [static inline void metal_bitmap_set_bit(unsigned long *bitmap, int bit)
     { bitmap[bit / METAL_BITS_PER_ULONG] |=
         metal_bit(bit & (METAL_BITS_PER_ULONG - 1)); }] *)
Definition metal_bitmap_set_bit (dm : data_model) (bitmap : list Z) (bit : Z)
  : outcome (list Z) :=
  m ← metal_bit dm (bit_position dm bit);
  w ← load bitmap (word_index dm bit);
  store bitmap (word_index dm bit) (Z.lor w m).

(** [static inline int metal_bitmap_is_bit_set(unsigned long *bitmap, int bit)
     { return bitmap[bit / METAL_BITS_PER_ULONG] &
         metal_bit(bit & (METAL_BITS_PER_ULONG - 1)); }]
    The operand of [return] is an [unsigned long]; the function returns
    [int], so the value is converted. *)
Definition metal_bitmap_is_bit_set (dm : data_model) (bitmap : list Z) (bit : Z)
  : outcome Z :=
  w ← load bitmap (word_index dm bit);
  m ← metal_bit dm (bit_position dm bit);
  mret (to_int dm (Z.land w m)).

(** [~m] on an [unsigned long]. *)
Definition ulong_not (dm : data_model) (m : Z) : Z := to_ulong dm (Z.lnot m).

(** [static inline void metal_bitmap_clear_bit(unsigned long *bitmap, int bit)
     { bitmap[bit / METAL_BITS_PER_ULONG] &=
         ~metal_bit(bit & (METAL_BITS_PER_ULONG - 1)); }] *)
Definition metal_bitmap_clear_bit (dm : data_model) (bitmap : list Z) (bit : Z)
  : outcome (list Z) :=
  m ← metal_bit dm (bit_position dm bit);
  w ← load bitmap (word_index dm bit);
  store bitmap (word_index dm bit) (Z.land w (ulong_not dm m)).

(** [static inline int metal_bitmap_is_bit_clear(unsigned long *bitmap, int bit)
     { return !metal_bitmap_is_bit_set(bitmap, bit); }] *)
Definition metal_bitmap_is_bit_clear (dm : data_model) (bitmap : list Z)
  (bit : Z) : outcome Z :=
  s ← metal_bitmap_is_bit_set dm bitmap bit;
  mret (if s =? 0 then 1 else 0).

(** ** Scans *)

(** The loop of both scanning functions,
    [for (bit = start; bit < max && !test(bitmap, bit); bit ++) ;
     return bit;]
    where [bit] is an [unsigned int] and [test] takes an [int].  [fuel]
    bounds the number of increments. *)
Fixpoint scan_loop (dm : data_model) (test : Z -> outcome Z) (max : Z)
  (fuel : nat) (bit : Z) {struct fuel} : outcome Z :=
  if bit <? max then
    t ← test (to_int dm bit);
    if t =? 0 then
      match fuel with
      | O => OutOfFuel
      | S fuel' => scan_loop dm test max fuel' (to_uint dm (bit + 1))
      end
    else Returns bit
  else Returns bit.

(** [metal_bitmap_next_set_bit(bitmap, start, max)]: the loop with
    [test := metal_bitmap_is_bit_set].  The loop increments [bit] at most
    [max - start] times, which is the budget it is given. *)
Definition metal_bitmap_next_set_bit (dm : data_model) (bitmap : list Z)
  (start max : Z) : outcome Z :=
  scan_loop dm (metal_bitmap_is_bit_set dm bitmap) max
    (Z.to_nat (max - start)) start.

(** [metal_bitmap_next_clear_bit(bitmap, start, max)]: the loop with
    [test := metal_bitmap_is_bit_clear]. *)
Definition metal_bitmap_next_clear_bit (dm : data_model) (bitmap : list Z)
  (start max : Z) : outcome Z :=
  scan_loop dm (metal_bitmap_is_bit_clear dm bitmap) max
    (Z.to_nat (max - start)) start.

(** ** Iteration macros *)

(** How a run of a [for] loop stands after a number of iterations. *)
Inductive loop_status : Type :=
| Exited            (* the loop condition was false: the loop is over *)
| Running           (* the loop condition is still true *)
| Faulted.          (* the loop header did not return a value *)

(** The loop of both iteration macros,
    [for ((bit) = next(bitmap, 0, max); (bit) < (max);
          (bit) = next(bitmap, (bit), max)) BODY]
    from the point where [bit] has a value.  The body is an observer: it
    leaves [bitmap], [bit] and [max] alone.  The result is the sequence of
    values of [bit] the body was run with during the first [iters]
    iterations, and how the loop stands then. *)
Fixpoint for_each_loop (next : Z -> outcome Z) (max : Z) (iters : nat)
  (bit : Z) {struct iters} : list Z * loop_status :=
  if bit <? max then
    match iters with
    | O => ([], Running)
    | S iters' =>
        match next bit with
        | Returns bit' =>
            let '(seen, st) := for_each_loop next max iters' bit' in
            (bit :: seen, st)
        | _ => ([bit], Faulted)
        end
    end
  else ([], Exited).

Definition for_each (next : Z -> Z -> outcome Z) (max : Z) (iters : nat)
  : list Z * loop_status :=
  match next 0 max with
  | Returns bit => for_each_loop (fun bit => next bit max) max iters bit
  | _ => ([], Faulted)
  end.

(** [#define metal_bitmap_for_each_set_bit(bitmap, bit, max)
       for ((bit) = metal_bitmap_next_set_bit((bitmap), 0, (max));
            (bit) < (max);
            (bit) = metal_bitmap_next_set_bit((bitmap), (bit), (max)))] *)
Definition metal_bitmap_for_each_set_bit (dm : data_model) (bitmap : list Z)
  (max : Z) (iters : nat) : list Z * loop_status :=
  for_each (metal_bitmap_next_set_bit dm bitmap) max iters.

(** [#define metal_bitmap_for_each_clear_bit(bitmap, bit, max)
       for ((bit) = metal_bitmap_next_clear_bit((bitmap), 0, (max));
            (bit) < (max);
            (bit) = metal_bitmap_next_clear_bit((bitmap), (bit), (max)))] *)
Definition metal_bitmap_for_each_clear_bit (dm : data_model) (bitmap : list Z)
  (max : Z) (iters : nat) : list Z * loop_status :=
  for_each (metal_bitmap_next_clear_bit dm bitmap) max iters.

(** ** [metal_log2] *)

(** The asserted condition, [(in & (in - 1)) == 0], on [unsigned long]. *)
Definition metal_log2_assertion (dm : data_model) (inp : Z) : bool :=
  Z.land inp (to_ulong dm (inp - 1)) =? 0.

(** [for (result = 0; (1UL << result) < in; result ++) ; return result;] *)
Fixpoint metal_log2_loop (dm : data_model) (inp : Z) (fuel : nat) (result : Z)
  {struct fuel} : outcome Z :=
  p ← metal_bit dm result;
  if p <? inp then
    match fuel with
    | O => OutOfFuel
    | S fuel' => metal_log2_loop dm inp fuel' (to_ulong dm (result + 1))
    end
  else Returns result.

(** [static inline unsigned long metal_log2(unsigned long in)].  [ndebug]
    says whether [NDEBUG] is defined, which compiles the [assert] out.  The
    shift is defined for [ulong_bits dm] values of [result] only, so that
    many increments are all the loop can make. *)
Definition metal_log2 (dm : data_model) (ndebug : bool) (inp : Z) : outcome Z :=
  if ndebug || metal_log2_assertion dm inp
  then metal_log2_loop dm inp (Z.to_nat (ulong_bits dm)) 0
  else AssertFailed.

(** ** The bits a bitmap holds *)

(** Bit [b] of a bitmap lives in word [b / W] at position [b mod W]. *)
Definition stored_bit (dm : data_model) (bitmap : list Z) (b : Z) : option bool :=
  w ← bitmap !! Z.to_nat (b / ulong_bits dm);
  Some (Z.testbit w (b mod ulong_bits dm)).

(** The number of bits the storage holds. *)
Definition capacity (dm : data_model) (bitmap : list Z) : Z :=
  ulong_bits dm * Z.of_nat (length bitmap).

(** A bitmap with the bits [{2, 5, 9}] set, in one word. *)
Definition bits_2_5_9 : list Z := [548].

(** ** What the properties are stated with *)

(** An index that addresses the storage: a non-negative [int] below the
    capacity. *)
Definition addressable (dm : data_model) (bitmap : list Z) (b : Z) : Prop :=
  0 <= b < capacity dm bitmap /\ b <= INT_MAX dm.

(** An index whose bit, once masked out of its word, is representable in
    the [int] that [metal_bitmap_is_bit_set] returns. *)
Definition narrow (dm : data_model) (b : Z) : Prop :=
  b mod ulong_bits dm < int_bits dm.

(** [r] is what a scan for bits of value [v] over [[start, max)] is to
    return: [max] if and only if no bit there has value [v], and otherwise
    the smallest index of [[start, max)] whose bit has value [v]. *)
Definition first_bit_with (dm : data_model) (bitmap : list Z) (v : bool)
  (start max r : Z) : Prop :=
  (r = max <-> forall i, start <= i < max -> stored_bit dm bitmap i <> Some v) /\
  (r <> max ->
   start <= r < max /\ stored_bit dm bitmap r = Some v /\
   forall i, start <= i < r -> stored_bit dm bitmap i <> Some v).

(** The ceiling of [n / d], from the floor that [Z]'s division is. *)
Definition ceiling (n d : Z) : Z := - (- n / d).

(** ** Alignment macros *)

(** [#define metal_align_down(size, align) ((size) & ~((align) - 1))]
    for operands of unsigned types, [size] of [ws] bits and [align] of [wa]
    bits, neither narrower than [int] (so that no operand is promoted to
    [int]).  The mask [~((align) - 1)] is computed in the type of [align];
    [&] is computed in the wider of both types, to which an unsigned
    operand converts with its value. *)
Definition metal_align_down (ws wa size align : Z) : Z :=
  let w := Z.max ws wa in
  Z.land (wrap w size) (wrap w (wrap wa (Z.lnot (wrap wa (align - 1))))).

(** [#define metal_align_up(size, align)
       metal_align_down((size) + (align) - 1, align)]
    for the same operands: the sum and the difference are computed in the
    wider of both types and wrap. *)
Definition metal_align_up (ws wa size align : Z) : Z :=
  let w := Z.max ws wa in
  metal_align_down w wa (wrap w (wrap w (size + align) - 1)) align.

(** [uintptr_t]: as wide as a pointer. *)
Definition sizeof_uintptr_t (dm : data_model) : Z :=
  match dm with
  | ILP32 => 4
  | LLP64 | LP64 => 8
  end.

Definition uintptr_bits (dm : data_model) : Z := 8 * sizeof_uintptr_t dm.
Definition to_uintptr (dm : data_model) (z : Z) : Z := wrap (uintptr_bits dm) z.

(** [metal_ptr_align_down(ptr, align)]: the source casts
    [metal_align_down((uintptr_t)(ptr), (uintptr_t)(align))] back to a
    pointer to [void]; modelled on the address the pointer holds. *)
Definition metal_ptr_align_down (dm : data_model) (ptr align : Z) : Z :=
  metal_align_down (uintptr_bits dm) (uintptr_bits dm)
    (to_uintptr dm ptr) (to_uintptr dm align).

(** [metal_ptr_align_up(ptr, align)]: the source casts
    [metal_align_up((uintptr_t)(ptr), (uintptr_t)(align))] back to a
    pointer to [void]. *)
Definition metal_ptr_align_up (dm : data_model) (ptr align : Z) : Z :=
  metal_align_up (uintptr_bits dm) (uintptr_bits dm)
    (to_uintptr dm ptr) (to_uintptr dm align).

(** ** Iteration with a body that writes the bitmap *)





(** ** More of what the properties are stated with *)

(** Every word of the storage is a value of [unsigned long]. *)
Definition well_formed (dm : data_model) (bitmap : list Z) : Prop :=
  Forall (fun w => 0 <= w < 2 ^ ulong_bits dm) bitmap.


(** [x] is zero or a power of two. *)
Definition zero_or_power_of_two (x : Z) : Prop :=
  x = 0 \/ exists k, 0 <= k /\ x = 2 ^ k.

(** * Properties *)

(** ** Widths and conversions *)

Lemma ulong_bits_cases (dm : data_model) :
  ulong_bits dm = 32 \/ ulong_bits dm = 64.
Proof. destruct dm; cbn; auto. Qed.

Lemma int_bits_32 (dm : data_model) : int_bits dm = 32.
Proof. reflexivity. Qed.

Lemma int_le_size (dm : data_model) : int_bits dm <= size_bits dm.
Proof. destruct dm; unfold int_bits, size_bits, sizeof_int, sizeof_size_t; lia. Qed.

Lemma ulong_bits_pos (dm : data_model) : 0 < ulong_bits dm.
Proof. destruct (ulong_bits_cases dm); lia. Qed.

Lemma METAL_BITS_PER_ULONG_eq (dm : data_model) :
  METAL_BITS_PER_ULONG dm = ulong_bits dm.
Proof. destruct dm; reflexivity. Qed.

Lemma to_size_t_small (dm : data_model) (z : Z) :
  0 <= z <= INT_MAX dm -> to_size_t dm z = z.
Proof.
  intros Hz. unfold to_size_t, wrap. apply Z.mod_small.
  unfold INT_MAX in Hz. rewrite int_bits_32 in Hz.
  assert (2 ^ 32 <= 2 ^ size_bits dm)
    by (apply Z.pow_le_mono_r; [lia | apply (int_le_size dm)]).
  change (2 ^ (32 - 1)) with 2147483648 in Hz. lia.
Qed.

Lemma to_int_small (dm : data_model) (z : Z) :
  0 <= z <= INT_MAX dm -> to_int dm z = z.
Proof.
  unfold INT_MAX, to_int, swrap. rewrite int_bits_32.
  change (2 ^ (32 - 1)) with 2147483648. change (2 ^ 32) with 4294967296.
  intros Hz. rewrite Z.mod_small; lia.
Qed.

Lemma to_uint_small (dm : data_model) (z : Z) :
  0 <= z <= UINT_MAX dm -> to_uint dm z = z.
Proof.
  unfold UINT_MAX, to_uint, wrap. rewrite int_bits_32.
  change (2 ^ 32) with 4294967296. intros Hz. apply Z.mod_small; lia.
Qed.

(** The converted value is zero exactly when the low [int_bits] bits are. *)
Lemma to_int_zero_iff (dm : data_model) (z : Z) :
  to_int dm z = 0 <-> z mod 2 ^ int_bits dm = 0.
Proof.
  unfold to_int, swrap. rewrite int_bits_32.
  change (2 ^ (32 - 1)) with 2147483648. change (2 ^ 32) with 4294967296.
  split; intros H; Z.div_mod_to_equations; lia.
Qed.

Lemma pow2_mod_pow2 (p n : Z) :
  0 <= p -> 0 <= n -> (2 ^ p mod 2 ^ n = 0 <-> n <= p).
Proof.
  intros Hp Hn. split.
  - intros H. destruct (Z_lt_le_dec p n) as [Hlt|]; [|assumption].
    rewrite Z.mod_small in H.
    + pose proof (Z.pow_pos_nonneg 2 p). lia.
    + split; [apply Z.pow_nonneg; lia | apply Z.pow_lt_mono_r; lia].
  - intros Hle. replace p with ((p - n) + n) by lia.
    rewrite Z.pow_add_r by lia. apply Z.mod_mul.
    pose proof (Z.pow_pos_nonneg 2 n). lia.
Qed.

(** A bit of an [unsigned long] survives the conversion to [int] exactly
    when its position is below the width of [int]. *)
Lemma to_int_pow2 (dm : data_model) (p : Z) :
  0 <= p -> (to_int dm (2 ^ p) = 0 <-> int_bits dm <= p).
Proof.
  intros Hp. rewrite to_int_zero_iff. apply pow2_mod_pow2; [assumption|].
  rewrite int_bits_32. lia.
Qed.

Lemma to_int_0 (dm : data_model) : to_int dm 0 = 0.
Proof. reflexivity. Qed.

(** ** Words and masks *)

Lemma land_pow2 (w p : Z) :
  0 <= p -> Z.land w (2 ^ p) = if Z.testbit w p then 2 ^ p else 0.
Proof.
  intros Hp. apply Z.bits_inj'. intros n Hn.
  rewrite Z.land_spec, Z.pow2_bits_eqb by assumption.
  destruct (Z.eqb_spec p n) as [->|Hne].
  - destruct (Z.testbit w n); cbn.
    + rewrite Z.pow2_bits_eqb, Z.eqb_refl by assumption. reflexivity.
    + rewrite Z.bits_0. reflexivity.
  - rewrite andb_false_r. destruct (Z.testbit w p).
    + rewrite Z.pow2_bits_eqb by assumption.
      symmetry. apply Z.eqb_neq. assumption.
    + rewrite Z.bits_0. reflexivity.
Qed.

Lemma metal_bit_pow2 (dm : data_model) (p : Z) :
  0 <= p < ulong_bits dm -> metal_bit dm p = Returns (2 ^ p).
Proof.
  intros [Hp0 Hp]. unfold metal_bit.
  destruct (Z.leb_spec 0 p); [|lia]. destruct (Z.ltb_spec p (ulong_bits dm)); [|lia].
  cbn. f_equal. unfold to_ulong, wrap. rewrite Z.shiftl_1_l.
  apply Z.mod_small. split; [apply Z.pow_nonneg; lia|].
  apply Z.pow_lt_mono_r; lia.
Qed.

(** ** Addressing *)

Lemma word_index_eq (dm : data_model) (b : Z) :
  0 <= b <= INT_MAX dm -> word_index dm b = b / ulong_bits dm.
Proof.
  intros Hb. unfold word_index.
  rewrite to_size_t_small, METAL_BITS_PER_ULONG_eq by assumption. reflexivity.
Qed.

(** [METAL_BITS_PER_ULONG] is a power of two, so that the mask
    [METAL_BITS_PER_ULONG - 1] selects the remainder. *)
Lemma position_mask (dm : data_model) :
  exists k, 0 <= k /\
    to_size_t dm (METAL_BITS_PER_ULONG dm - 1) = Z.ones k /\
    ulong_bits dm = 2 ^ k.
Proof.
  destruct dm; [exists 5 | exists 5 | exists 6];
    (split; [lia | split; reflexivity]).
Qed.

Lemma bit_position_eq (dm : data_model) (b : Z) :
  0 <= b <= INT_MAX dm -> bit_position dm b = b mod ulong_bits dm.
Proof.
  intros Hb. unfold bit_position. rewrite to_size_t_small by assumption.
  destruct (position_mask dm) as (k & Hk & -> & ->).
  apply Z.land_ones. assumption.
Qed.

Lemma position_range (dm : data_model) (b : Z) :
  0 <= b mod ulong_bits dm < ulong_bits dm.
Proof. apply Z.mod_pos_bound, ulong_bits_pos. Qed.

Lemma addressable_word (dm : data_model) (bitmap : list Z) (b : Z) :
  addressable dm bitmap b ->
  exists w, bitmap !! Z.to_nat (b / ulong_bits dm) = Some w.
Proof.
  intros [[Hb0 Hb] _]. apply lookup_lt_is_Some_2.
  unfold capacity in Hb. pose proof (ulong_bits_pos dm) as HW.
  assert (b / ulong_bits dm < Z.of_nat (length bitmap)).
  { apply Z.div_lt_upper_bound; lia. }
  assert (0 <= b / ulong_bits dm) by (apply Z.div_pos; lia).
  lia.
Qed.

Lemma load_word (bitmap : list Z) (idx w : Z) :
  bitmap !! Z.to_nat idx = Some w -> load bitmap idx = Returns w.
Proof. intros H. unfold load. rewrite H. reflexivity. Qed.

Lemma store_word (bitmap : list Z) (idx w v : Z) :
  bitmap !! Z.to_nat idx = Some w ->
  store bitmap idx v = Returns (<[Z.to_nat idx := v]> bitmap).
Proof.
  intros H. unfold store. apply lookup_lt_Some in H.
  destruct (decide _); [reflexivity | lia].
Qed.

(** ** The bit operations on an addressable index *)

Section Addressable.
Context (dm : data_model) (bitmap : list Z) (b w : Z).
Hypothesis Hb : addressable dm bitmap b.
Hypothesis Hw : bitmap !! Z.to_nat (b / ulong_bits dm) = Some w.

Local Abbreviation idx := (Z.to_nat (b / ulong_bits dm)).
Local Abbreviation pos := (b mod ulong_bits dm).

Lemma set_bit_addressable :
  metal_bitmap_set_bit dm bitmap b
  = Returns (<[idx := Z.lor w (2 ^ pos)]> bitmap).
Proof.
  destruct Hb as [[Hb0 _] Hmax]. unfold metal_bitmap_set_bit.
  rewrite word_index_eq, bit_position_eq by lia.
  rewrite metal_bit_pow2 by apply position_range. cbn.
  rewrite (load_word _ _ _ Hw). cbn.
  apply (store_word _ _ _ _ Hw).
Qed.

Lemma clear_bit_addressable :
  metal_bitmap_clear_bit dm bitmap b
  = Returns (<[idx := Z.land w (ulong_not dm (2 ^ pos))]> bitmap).
Proof.
  destruct Hb as [[Hb0 _] Hmax]. unfold metal_bitmap_clear_bit.
  rewrite word_index_eq, bit_position_eq by lia.
  rewrite metal_bit_pow2 by apply position_range. cbn.
  rewrite (load_word _ _ _ Hw). cbn.
  apply (store_word _ _ _ _ Hw).
Qed.

Lemma is_bit_set_addressable :
  metal_bitmap_is_bit_set dm bitmap b
  = Returns (to_int dm (if Z.testbit w pos then 2 ^ pos else 0)).
Proof.
  destruct Hb as [[Hb0 _] Hmax]. unfold metal_bitmap_is_bit_set.
  rewrite word_index_eq, bit_position_eq by lia.
  rewrite (load_word _ _ _ Hw). cbn.
  rewrite metal_bit_pow2 by apply position_range. cbn.
  rewrite land_pow2 by apply position_range. reflexivity.
Qed.

Lemma stored_bit_addressable :
  stored_bit dm bitmap b = Some (Z.testbit w pos).
Proof. unfold stored_bit. rewrite Hw. reflexivity. Qed.

(** What [metal_bitmap_is_bit_set] answers: the stored bit, provided its
    position is below the width of [int]; zero for every position above. *)
Lemma is_bit_set_answer :
  exists s, metal_bitmap_is_bit_set dm bitmap b = Returns s /\
    (s <> 0 <-> Z.testbit w pos = true /\ narrow dm b).
Proof.
  eexists. split; [apply is_bit_set_addressable|].
  pose proof (position_range dm b) as [Hp _].
  unfold narrow. destruct (Z.testbit w pos).
  - rewrite to_int_pow2 by assumption. split; [intros; split; [reflexivity|lia] | lia].
  - rewrite to_int_0. split; [congruence | intros [? _]; discriminate].
Qed.

Lemma is_bit_clear_answer :
  exists c, metal_bitmap_is_bit_clear dm bitmap b = Returns c /\
    (c <> 0 <-> ~ (Z.testbit w pos = true /\ narrow dm b)).
Proof.
  destruct is_bit_set_answer as (s & Hs & Hiff).
  unfold metal_bitmap_is_bit_clear. rewrite Hs. cbn.
  eexists. split; [reflexivity|].
  destruct (Z.eqb_spec s 0) as [Hz|Hnz].
  - split; [intros _ H; apply Hiff in H; contradiction | discriminate].
  - split; [congruence | intros H; exfalso; apply H, Hiff, Hnz].
Qed.
End Addressable.

(** ** The scanning loop *)

Section ScanLoop.
Context (dm : data_model) (test : Z -> outcome Z) (lo max : Z).
Hypothesis Hlo : 0 <= lo.
Hypothesis Hmax : max <= INT_MAX dm + 1.
(** [test] returns on every index of [[lo, max)]. *)
Hypothesis Htest : forall i, lo <= i < max -> exists t, test i = Returns t.

(** With a budget of [max - start] increments the loop returns the first
    index from [start] on at which [test] is non-zero, or [max]. *)
Lemma scan_loop_first (fuel : nat) (start : Z) :
  lo <= start <= max ->
  (Z.to_nat (max - start) <= fuel)%nat ->
  exists r, scan_loop dm test max fuel start = Returns r /\
    start <= r <= max /\
    (forall i, start <= i < r -> test i = Returns 0) /\
    (r < max -> exists t, test r = Returns t /\ t <> 0).
Proof.
  revert start. induction fuel as [|fuel IH]; intros start Hstart Hfuel.
  - assert (start = max) as -> by lia.
    exists max. cbn. rewrite Z.ltb_irrefl.
    repeat split; try lia; intros; lia.
  - cbn [scan_loop]. destruct (Z.ltb_spec start max) as [Hlt|Hge].
    + assert (to_int dm start = start) as -> by (apply to_int_small; lia).
      destruct (Htest start) as [t Ht]; [lia|]. rewrite Ht. cbn.
      destruct (Z.eqb_spec t 0) as [->|Hnz].
      * assert (to_uint dm (start + 1) = start + 1) as ->.
        { apply to_uint_small. unfold UINT_MAX, INT_MAX in *.
          rewrite int_bits_32 in *. change (2 ^ (32 - 1)) with 2147483648 in Hmax.
          change (2 ^ 32) with 4294967296. lia. }
        destruct (IH (start + 1)) as (r & Hr & Hrange & Hbefore & Hat); [lia..|].
        exists r. split; [assumption|]. split; [lia|]. split; [|assumption].
        intros i Hi. destruct (Z.eq_dec i start) as [->|]; [assumption|].
        apply Hbefore. lia.
      * exists start. split; [reflexivity|]. split; [lia|].
        split; [intros; lia | intros _; eauto].
    + exists start. split; [reflexivity|]. split; [lia|].
      split; intros; lia.
Qed.
End ScanLoop.

(** Where the bound does not exceed the start the loop body never runs. *)
Lemma scan_loop_empty (dm : data_model) (test : Z -> outcome Z) (max : Z)
  (fuel : nat) (start : Z) :
  max <= start -> scan_loop dm test max fuel start = Returns start.
Proof.
  intros H. destruct fuel; cbn; destruct (Z.ltb_spec start max); (lia || reflexivity).
Qed.

(** Where [test] is non-zero at the start the loop returns the start. *)
Lemma scan_loop_here (dm : data_model) (test : Z -> outcome Z) (max : Z)
  (fuel : nat) (start t : Z) :
  0 <= start <= INT_MAX dm -> test start = Returns t -> t <> 0 ->
  scan_loop dm test max fuel start = Returns start.
Proof.
  intros Hs Ht Hnz.
  assert (scan_loop dm test max fuel start
          = if start <? max then
              t ← test (to_int dm start);
              if t =? 0 then
                match fuel with
                | O => OutOfFuel
                | S fuel' => scan_loop dm test max fuel' (to_uint dm (start + 1))
                end
              else Returns start
            else Returns start) as -> by (destruct fuel; reflexivity).
  rewrite to_int_small, Ht by assumption. cbn.
  destruct (Z.eqb_spec t 0); [contradiction|].
  destruct (start <? max); reflexivity.
Qed.

Lemma addressable_below (dm : data_model) (bitmap : list Z) (max i : Z) :
  max <= capacity dm bitmap -> max <= INT_MAX dm + 1 -> 0 <= i < max ->
  addressable dm bitmap i.
Proof. unfold addressable. lia. Qed.

Section Scans.
Context (dm : data_model) (bitmap : list Z) (start max : Z).
Hypothesis Hstart : 0 <= start <= max.
Hypothesis Hcap : max <= capacity dm bitmap.
Hypothesis Hint : max <= INT_MAX dm + 1.
Hypothesis Hnarrow : forall i, start <= i < max -> narrow dm i.

Lemma is_bit_set_narrow (i : Z) :
  start <= i < max ->
  exists s, metal_bitmap_is_bit_set dm bitmap i = Returns s /\
    (s <> 0 <-> stored_bit dm bitmap i = Some true).
Proof.
  intros Hi.
  assert (addressable dm bitmap i) as Ha by (apply (addressable_below dm bitmap max); lia).
  destruct (addressable_word _ _ _ Ha) as [w Hw].
  destruct (is_bit_set_answer dm bitmap i w Ha Hw) as (s & Hs & Hiff).
  exists s. split; [assumption|].
  rewrite (stored_bit_addressable dm bitmap i w Hw), Hiff.
  specialize (Hnarrow i Hi). split; [intros [-> _]; reflexivity | intros [= ->]; auto].
Qed.

Lemma is_bit_clear_narrow (i : Z) :
  start <= i < max ->
  exists c, metal_bitmap_is_bit_clear dm bitmap i = Returns c /\
    (c <> 0 <-> stored_bit dm bitmap i = Some false).
Proof.
  intros Hi.
  assert (addressable dm bitmap i) as Ha by (apply (addressable_below dm bitmap max); lia).
  destruct (addressable_word _ _ _ Ha) as [w Hw].
  destruct (is_bit_clear_answer dm bitmap i w Ha Hw) as (c & Hc & Hiff).
  exists c. split; [assumption|].
  rewrite (stored_bit_addressable dm bitmap i w Hw), Hiff.
  specialize (Hnarrow i Hi). destruct (Z.testbit w _).
  - split; [intros H; exfalso; apply H; auto | discriminate].
  - split; [reflexivity | intros _ [? _]; discriminate].
Qed.

(** From the loop's result to [first_bit_with], for either scan. *)
Lemma scan_loop_first_bit (test : Z -> outcome Z) (v : bool) :
  (forall i, start <= i < max ->
     exists t, test i = Returns t /\ (t <> 0 <-> stored_bit dm bitmap i = Some v)) ->
  exists r, scan_loop dm test max (Z.to_nat (max - start)) start = Returns r /\
    first_bit_with dm bitmap v start max r.
Proof.
  intros Htest.
  destruct (scan_loop_first dm test start max) with (fuel := Z.to_nat (max - start))
    (start := start) as (r & Hr & Hrange & Hbefore & Hat); try lia.
  { intros i Hi. destruct (Htest i Hi) as (t & Ht & _). eauto. }
  exists r. split; [assumption|].
  assert (forall i, start <= i < r -> stored_bit dm bitmap i <> Some v) as Hnone.
  { intros i Hi Hv. destruct (Htest i) as (t & Ht & Hiff); [lia|].
    rewrite (Hbefore i Hi) in Ht. injection Ht as <-. apply Hiff in Hv. congruence. }
  assert (r < max -> stored_bit dm bitmap r = Some v) as Hfound.
  { intros Hlt. destruct (Hat Hlt) as (t & Ht & Hnz).
    destruct (Htest r) as (t' & Ht' & Hiff); [lia|].
    rewrite Ht in Ht'. injection Ht' as <-. apply Hiff, Hnz. }
  split.
  - split.
    + intros ->. assumption.
    + intros Hall. destruct (Z.eq_dec r max) as [|Hne]; [assumption|].
      exfalso. apply (Hall r); [lia|]. apply Hfound. lia.
  - intros Hne. split; [lia|]. split; [apply Hfound; lia | assumption].
Qed.
End Scans.

(** * The scans: [metal_bitmap_next_set_bit], [metal_bitmap_next_clear_bit] *)

(** C4, as amended.  For every bitmap, start index and bound with
    [start <= max], where [[start, max)] lies inside the storage, [max] does
    not exceed [INT_MAX + 1] and every index of [[start, max)] sits at an
    in-word position below the width of [int], [metal_bitmap_next_set_bit]
    returns [max] if and only if no bit in [[start, max)] is set, and
    otherwise the smallest set index that is [>= start] and [< max]. *)
Theorem next_set_bit_first_set (dm : data_model) (bitmap : list Z) (start max : Z) :
  0 <= start <= max ->
  max <= capacity dm bitmap ->
  max <= INT_MAX dm + 1 ->
  (forall i, start <= i < max -> narrow dm i) ->
  exists r, metal_bitmap_next_set_bit dm bitmap start max = Returns r /\
    first_bit_with dm bitmap true start max r.
Proof.
  intros Hstart Hcap Hint Hnarrow. unfold metal_bitmap_next_set_bit.
  apply scan_loop_first_bit; try assumption.
  intros i Hi. apply (is_bit_set_narrow dm bitmap start max); assumption.
Qed.

Lemma next_set_bit_first_set_witness :
  exists r, metal_bitmap_next_set_bit LP64 bits_2_5_9 3 10 = Returns r /\
    first_bit_with LP64 bits_2_5_9 true 3 10 r.
Proof.
  apply (next_set_bit_first_set LP64 bits_2_5_9 3 10).
  - lia.
  - vm_compute. discriminate.
  - vm_compute. discriminate.
  - intros i Hi. unfold narrow. change (ulong_bits LP64) with 64.
    change (int_bits LP64) with 32. rewrite Z.mod_small; lia.
Defined.

(** C4 as stated fails for a start index above the bound: the loop
    condition [bit < max] is false at once and the start index is returned,
    not [max], although the empty range holds no set bit. *)
Lemma next_set_bit_start_above_max :
  ~ exists r, metal_bitmap_next_set_bit ILP32 [0] 5 3 = Returns r /\
      first_bit_with ILP32 [0] true 5 3 r.
Proof.
  intros (r & Hr & [Hmax _]). vm_compute in Hr. injection Hr as <-.
  assert (5 = 3) by (apply Hmax; intros i Hi; lia). discriminate.
Qed.

(** Why the other conditions stand in C4 and C5: past the storage the scan
    reads outside it, and in the LP64 data model a set bit at an in-word
    position of 32 or more is passed over. *)
Lemma next_set_bit_beyond_storage :
  metal_bitmap_next_set_bit LP64 [0] 0 65 = Undefined.
Proof. vm_compute. reflexivity. Qed.

Lemma next_set_bit_skips_wide_position :
  stored_bit LP64 [1099511627776] 40 = Some true /\
  metal_bitmap_next_set_bit LP64 [1099511627776] 0 64 = Returns 64.
Proof. split; vm_compute; reflexivity. Qed.

(** C5, as amended.  Under the conditions of C4 ([start <= max], the range
    inside the storage and below [INT_MAX + 1], in-word positions below the
    width of [int]), [metal_bitmap_next_clear_bit] is the dual of
    [metal_bitmap_next_set_bit]: it returns [max] if and only if no bit in
    [[start, max)] is clear, and otherwise the smallest clear index that is
    [>= start] and [< max]. *)
Theorem next_clear_bit_first_clear (dm : data_model) (bitmap : list Z)
  (start max : Z) :
  0 <= start <= max ->
  max <= capacity dm bitmap ->
  max <= INT_MAX dm + 1 ->
  (forall i, start <= i < max -> narrow dm i) ->
  exists r, metal_bitmap_next_clear_bit dm bitmap start max = Returns r /\
    first_bit_with dm bitmap false start max r.
Proof.
  intros Hstart Hcap Hint Hnarrow. unfold metal_bitmap_next_clear_bit.
  apply scan_loop_first_bit; try assumption.
  intros i Hi. apply (is_bit_clear_narrow dm bitmap start max); assumption.
Qed.

Lemma next_clear_bit_first_clear_witness :
  exists r, metal_bitmap_next_clear_bit ILP32 bits_2_5_9 2 10 = Returns r /\
    first_bit_with ILP32 bits_2_5_9 false 2 10 r.
Proof.
  apply (next_clear_bit_first_clear ILP32 bits_2_5_9 2 10).
  - lia.
  - vm_compute. discriminate.
  - vm_compute. discriminate.
  - intros i Hi. unfold narrow. change (ulong_bits ILP32) with 32.
    change (int_bits ILP32) with 32. apply Z.mod_pos_bound. lia.
Defined.

(** C5 as stated fails for a start index above the bound, as C4 does: with
    every bit of the word set the scan for a clear bit over the empty range
    [[7, 4)] returns 7, not the bound. *)
Lemma next_clear_bit_start_above_max :
  ~ exists r, metal_bitmap_next_clear_bit LP64 [255] 7 4 = Returns r /\
      first_bit_with LP64 [255] false 7 4 r.
Proof.
  intros (r & Hr & [Hmax _]). vm_compute in Hr. injection Hr as <-.
  assert (7 = 4) by (apply Hmax; intros i Hi; lia). discriminate.
Qed.

(** * Setting, clearing and testing single bits *)

Lemma capacity_insert (dm : data_model) (bitmap : list Z) (i : nat) (v : Z) :
  capacity dm (<[i := v]> bitmap) = capacity dm bitmap.
Proof. unfold capacity. rewrite length_insert. reflexivity. Qed.

Lemma addressable_insert (dm : data_model) (bitmap : list Z) (i : nat) (v b : Z) :
  addressable dm bitmap b -> addressable dm (<[i := v]> bitmap) b.
Proof. unfold addressable. rewrite capacity_insert. trivial. Qed.

Lemma testbit_set (w p : Z) : 0 <= p -> Z.testbit (Z.lor w (2 ^ p)) p = true.
Proof.
  intros Hp. rewrite Z.lor_spec, Z.pow2_bits_eqb, Z.eqb_refl by assumption.
  apply orb_true_r.
Qed.

Lemma testbit_set_other (w p q : Z) :
  0 <= p -> p <> q -> Z.testbit (Z.lor w (2 ^ p)) q = Z.testbit w q.
Proof.
  intros Hp Hne. rewrite Z.lor_spec, Z.pow2_bits_eqb by assumption.
  destruct (Z.eqb_spec p q); [contradiction | apply orb_false_r].
Qed.

Lemma testbit_clear (dm : data_model) (w p : Z) :
  0 <= p < ulong_bits dm ->
  Z.testbit (Z.land w (ulong_not dm (2 ^ p))) p = false.
Proof.
  intros [Hp0 Hp]. unfold ulong_not, to_ulong, wrap.
  rewrite Z.land_spec, Z.mod_pow2_bits_low, Z.lnot_spec by lia.
  rewrite Z.pow2_bits_eqb, Z.eqb_refl by assumption. apply andb_false_r.
Qed.

(** Two indices in the same word at the same position are the same index. *)
Lemma index_split (dm : data_model) (b c : Z) :
  0 <= b -> 0 <= c ->
  Z.to_nat (b / ulong_bits dm) = Z.to_nat (c / ulong_bits dm) ->
  b mod ulong_bits dm = c mod ulong_bits dm ->
  b = c.
Proof.
  intros Hb Hc Hidx Hpos. pose proof (ulong_bits_pos dm) as HW.
  assert (b / ulong_bits dm = c / ulong_bits dm) as Hdiv.
  { apply Z2Nat.inj; [apply Z.div_pos; lia | apply Z.div_pos; lia | assumption]. }
  rewrite (Z.div_mod b (ulong_bits dm)), (Z.div_mod c (ulong_bits dm)) by lia.
  rewrite Hdiv, Hpos. reflexivity.
Qed.

(** C7.  For every bitmap and all bit indices [b] and [c] within the
    storage with [c <> b], [metal_bitmap_set_bit] on [b] leaves the answer
    of [metal_bitmap_is_bit_set] on [c] as it was. *)
Theorem set_bit_frame (dm : data_model) (bitmap : list Z) (b c : Z) :
  addressable dm bitmap b ->
  addressable dm bitmap c ->
  c <> b ->
  exists bitmap', metal_bitmap_set_bit dm bitmap b = Returns bitmap' /\
    metal_bitmap_is_bit_set dm bitmap' c = metal_bitmap_is_bit_set dm bitmap c.
Proof.
  intros Hb Hc Hne.
  destruct (addressable_word _ _ _ Hb) as [w Hw].
  destruct (addressable_word _ _ _ Hc) as [wc Hwc].
  eexists. split; [apply (set_bit_addressable dm bitmap b w Hb Hw)|].
  rewrite (is_bit_set_addressable dm bitmap c wc Hc Hwc).
  pose proof (position_range dm b) as [Hp _].
  destruct (decide (Z.to_nat (b / ulong_bits dm) = Z.to_nat (c / ulong_bits dm)))
    as [Hsame|Hother].
  - assert (wc = w) as -> by congruence.
    rewrite (is_bit_set_addressable dm _ c (Z.lor w (2 ^ (b mod ulong_bits dm)))).
    + rewrite testbit_set_other; [reflexivity | assumption |].
      intros Hpos. apply Hne. symmetry.
      apply (index_split dm b c); [apply Hb | apply Hc | assumption..].
    + apply addressable_insert, Hc.
    + rewrite Hsame. apply list_lookup_insert_eq.
      apply lookup_lt_Some in Hwc. assumption.
  - rewrite (is_bit_set_addressable dm _ c wc); [reflexivity | |].
    + apply addressable_insert, Hc.
    + rewrite list_lookup_insert_ne by assumption. assumption.
Qed.

Lemma set_bit_frame_witness :
  exists bitmap', metal_bitmap_set_bit LP64 [0; 0] 70 = Returns bitmap' /\
    metal_bitmap_is_bit_set LP64 bitmap' 6 = metal_bitmap_is_bit_set LP64 [0; 0] 6.
Proof.
  apply (set_bit_frame LP64 [0; 0] 70 6).
  - unfold addressable. vm_compute. repeat split; discriminate.
  - unfold addressable. vm_compute. repeat split; discriminate.
  - discriminate.
Defined.

(** C6 at a failing input.  In the LP64 data model, setting bit 32 of a
    one-word bitmap stores the bit, but [metal_bitmap_is_bit_set] then
    answers 0 and [metal_bitmap_is_bit_clear] answers 1: the masked word
    [1UL << 32] is returned through [int] and loses its only bit. *)
Theorem set_bit_32_unseen_on_LP64 :
  metal_bitmap_set_bit LP64 [0] 32 = Returns [4294967296] /\
  stored_bit LP64 [4294967296] 32 = Some true /\
  metal_bitmap_is_bit_set LP64 [4294967296] 32 = Returns 0 /\
  metal_bitmap_is_bit_clear LP64 [4294967296] 32 = Returns 1.
Proof. repeat split; vm_compute; reflexivity. Qed.

(** The part of C6 the code keeps: for an index within the storage whose
    in-word position is below the width of [int] (every index where
    [unsigned long] is as wide as [int]), after [metal_bitmap_set_bit] the
    bit tests as set and not clear, and after a subsequent
    [metal_bitmap_clear_bit] it tests as clear and not set. *)
Theorem set_then_clear_narrow (dm : data_model) (bitmap : list Z) (b : Z) :
  addressable dm bitmap b ->
  narrow dm b ->
  exists bitmap1 bitmap2 s,
    metal_bitmap_set_bit dm bitmap b = Returns bitmap1 /\
    metal_bitmap_is_bit_set dm bitmap1 b = Returns s /\ s <> 0 /\
    metal_bitmap_is_bit_clear dm bitmap1 b = Returns 0 /\
    metal_bitmap_clear_bit dm bitmap1 b = Returns bitmap2 /\
    metal_bitmap_is_bit_set dm bitmap2 b = Returns 0 /\
    metal_bitmap_is_bit_clear dm bitmap2 b = Returns 1.
Proof.
  intros Hb Hn. destruct (addressable_word _ _ _ Hb) as [w Hw].
  pose proof (position_range dm b) as Hp.
  pose proof (lookup_lt_Some _ _ _ Hw) as Hlen.
  set (idx := Z.to_nat (b / ulong_bits dm)) in *.
  set (pos := b mod ulong_bits dm) in *.
  set (w1 := Z.lor w (2 ^ pos)).
  set (bitmap1 := <[idx := w1]> bitmap).
  set (w2 := Z.land w1 (ulong_not dm (2 ^ pos))).
  assert (addressable dm bitmap1 b) as Hb1 by apply addressable_insert, Hb.
  assert (bitmap1 !! idx = Some w1) as Hw1 by (apply list_lookup_insert_eq; assumption).
  assert (addressable dm (<[idx := w2]> bitmap1) b) as Hb2
    by apply addressable_insert, Hb1.
  assert (<[idx := w2]> bitmap1 !! idx = Some w2) as Hw2.
  { apply list_lookup_insert_eq. unfold bitmap1. rewrite length_insert. assumption. }
  assert (metal_bitmap_is_bit_set dm bitmap1 b = Returns (to_int dm (2 ^ pos))) as Hs1.
  { rewrite (is_bit_set_addressable dm bitmap1 b w1 Hb1 Hw1).
    fold pos. unfold w1. rewrite testbit_set by lia. reflexivity. }
  assert (to_int dm (2 ^ pos) <> 0) as Hnz.
  { intros Hz. apply to_int_pow2 in Hz; [|lia]. unfold narrow in Hn. fold pos in Hn. lia. }
  assert (metal_bitmap_is_bit_set dm (<[idx := w2]> bitmap1) b = Returns 0) as Hs2.
  { rewrite (is_bit_set_addressable dm _ b w2 Hb2 Hw2).
    fold pos. unfold w2. rewrite testbit_clear by assumption. reflexivity. }
  exists bitmap1, (<[idx := w2]> bitmap1), (to_int dm (2 ^ pos)).
  split; [apply (set_bit_addressable dm bitmap b w Hb Hw)|].
  split; [assumption|]. split; [assumption|].
  split.
  { unfold metal_bitmap_is_bit_clear. rewrite Hs1. cbn.
    destruct (Z.eqb_spec (to_int dm (2 ^ pos)) 0); [contradiction | reflexivity]. }
  split; [apply (clear_bit_addressable dm bitmap1 b w1 Hb1 Hw1)|].
  split; [assumption|].
  unfold metal_bitmap_is_bit_clear. rewrite Hs2. reflexivity.
Qed.

Lemma set_then_clear_narrow_witness :
  exists bitmap1 bitmap2 s,
    metal_bitmap_set_bit ILP32 [0; 0] 63 = Returns bitmap1 /\
    metal_bitmap_is_bit_set ILP32 bitmap1 63 = Returns s /\ s <> 0 /\
    metal_bitmap_is_bit_clear ILP32 bitmap1 63 = Returns 0 /\
    metal_bitmap_clear_bit ILP32 bitmap1 63 = Returns bitmap2 /\
    metal_bitmap_is_bit_set ILP32 bitmap2 63 = Returns 0 /\
    metal_bitmap_is_bit_clear ILP32 bitmap2 63 = Returns 1.
Proof.
  apply (set_then_clear_narrow ILP32 [0; 0] 63).
  - unfold addressable. vm_compute. repeat split; discriminate.
  - unfold narrow. vm_compute. reflexivity.
Defined.

(** * Sizing: [metal_bitmap_longs] *)

(** [ceiling n d] is the least [q] with [n <= d * q]. *)
Lemma ceiling_least (n d : Z) :
  0 < d -> d * (ceiling n d - 1) < n <= d * ceiling n d.
Proof. intros Hd. unfold ceiling. Z.div_mod_to_equations. nia. Qed.

Lemma round_up_no_wrap (dm : data_model) (n d : Z) :
  0 < d -> 0 <= n <= SIZE_MAX dm + 1 - d ->
  to_size_t dm (to_size_t dm (n + d) - 1) = n + d - 1.
Proof.
  intros Hd Hn. unfold to_size_t, wrap, SIZE_MAX in *.
  rewrite Zminus_mod_idemp_l. apply Z.mod_small. lia.
Qed.

(** C8, as amended.  For every capacity [n] with
    [0 <= n <= SIZE_MAX + 1 - W], where [W] is [METAL_BITS_PER_ULONG],
    [metal_bitmap_longs n] equals [ceil(n / W)]. *)
Theorem bitmap_longs_ceiling (dm : data_model) (n : Z) :
  0 <= n <= SIZE_MAX dm + 1 - METAL_BITS_PER_ULONG dm ->
  metal_bitmap_longs dm n = ceiling n (METAL_BITS_PER_ULONG dm).
Proof.
  intros Hn. pose proof (ulong_bits_pos dm) as HW.
  rewrite <- METAL_BITS_PER_ULONG_eq in HW.
  unfold metal_bitmap_longs, metal_div_round_up, metal_div_round_down.
  rewrite round_up_no_wrap by assumption.
  unfold ceiling. Z.div_mod_to_equations. nia.
Qed.

Lemma bitmap_longs_ceiling_witness :
  metal_bitmap_longs LP64 16 = ceiling 16 (METAL_BITS_PER_ULONG LP64).
Proof.
  apply (bitmap_longs_ceiling LP64 16). vm_compute. split; discriminate.
Defined.

(** C8 as stated fails for the capacities of the last [W - 1] values of
    [size_t]: the sum [(x) + METAL_BITS_PER_ULONG - 1] wraps.  With 32-bit
    [size_t] and [unsigned long], a capacity of [2^32 - 1] bits gives 0
    words where the ceiling is [2^27]. *)
Lemma bitmap_longs_wraps :
  0 <= 4294967295 <= SIZE_MAX ILP32 /\
  metal_bitmap_longs ILP32 4294967295 = 0 /\
  ceiling 4294967295 (METAL_BITS_PER_ULONG ILP32) = 134217728 /\
  metal_bitmap_longs ILP32 4294967295
  <> ceiling 4294967295 (METAL_BITS_PER_ULONG ILP32).
Proof. vm_compute. repeat split; discriminate. Qed.

(** * [metal_log2] *)

Lemma land_pow2_pred (k : Z) : 0 <= k -> Z.land (2 ^ k) (2 ^ k - 1) = 0.
Proof.
  intros Hk. rewrite Z.land_comm, land_pow2 by assumption.
  replace (2 ^ k - 1) with (Z.ones k) by (rewrite Z.ones_equiv; lia).
  rewrite Z.ones_spec_high by lia. reflexivity.
Qed.

Lemma pow2_below_ulong (dm : data_model) (k : Z) :
  0 <= k < ulong_bits dm -> 0 < 2 ^ k < 2 ^ ulong_bits dm.
Proof.
  intros Hk. split; [apply Z.pow_pos_nonneg; lia | apply Z.pow_lt_mono_r; lia].
Qed.

(** The assertion holds on every power of two. *)
Lemma metal_log2_assertion_pow2 (dm : data_model) (k : Z) :
  0 <= k < ulong_bits dm -> metal_log2_assertion dm (2 ^ k) = true.
Proof.
  intros Hk. unfold metal_log2_assertion, to_ulong, wrap.
  pose proof (pow2_below_ulong dm k Hk).
  rewrite Z.mod_small by lia. rewrite land_pow2_pred by lia. reflexivity.
Qed.

(** The doubling search on [2^k], from any [result] not above [k]. *)
Lemma metal_log2_loop_pow2 (dm : data_model) (k : Z) (fuel : nat) (result : Z) :
  0 <= result <= k -> k < ulong_bits dm ->
  (Z.to_nat (k - result) <= fuel)%nat ->
  metal_log2_loop dm (2 ^ k) fuel result = Returns k.
Proof.
  revert result. induction fuel as [|fuel IH]; intros result Hr Hk Hfuel.
  - assert (result = k) as -> by lia. cbn.
    rewrite metal_bit_pow2 by lia. cbn. rewrite Z.ltb_irrefl. reflexivity.
  - cbn [metal_log2_loop]. rewrite metal_bit_pow2 by lia. cbn.
    destruct (Z.ltb_spec (2 ^ result) (2 ^ k)) as [Hlt|Hge].
    + assert (result < k) as Hrk by (apply (Z.pow_lt_mono_r_iff 2); lia).
      assert (to_ulong dm (result + 1) = result + 1) as ->.
      { unfold to_ulong, wrap. apply Z.mod_small.
        pose proof (Z.pow_gt_lin_r 2 (ulong_bits dm)). lia. }
      apply IH; lia.
    + assert (k <= result) by (apply (Z.pow_le_mono_r_iff 2); lia).
      f_equal. lia.
Qed.

Lemma metal_log2_pow2 (dm : data_model) (ndebug : bool) (k : Z) :
  0 <= k < ulong_bits dm -> metal_log2 dm ndebug (2 ^ k) = Returns k.
Proof.
  intros Hk. unfold metal_log2.
  rewrite metal_log2_assertion_pow2, orb_true_r by assumption.
  apply metal_log2_loop_pow2; lia.
Qed.

(** C9.  For every positive power of two [2^k] an [unsigned long] holds,
    [metal_log2] returns [k], with the assertion compiled in or out; so
    [metal_log2 1 = 0], [metal_log2 2 = 1] and [metal_log2 1024 = 10]; and
    with the assertion compiled in ([NDEBUG] not defined) the call on 3
    fails the assertion. *)
Theorem metal_log2_exponent (dm : data_model) (ndebug : bool) (k : Z) :
  0 <= k < ulong_bits dm ->
  metal_log2 dm ndebug (2 ^ k) = Returns k /\
  metal_log2 dm ndebug 1 = Returns 0 /\
  metal_log2 dm ndebug 2 = Returns 1 /\
  metal_log2 dm ndebug 1024 = Returns 10 /\
  metal_log2 dm false 3 = AssertFailed.
Proof.
  intros Hk. pose proof (ulong_bits_cases dm) as HW.
  split; [apply metal_log2_pow2; assumption|].
  split; [apply (metal_log2_pow2 dm ndebug 0); lia|].
  split; [apply (metal_log2_pow2 dm ndebug 1); lia|].
  split; [apply (metal_log2_pow2 dm ndebug 10); lia|].
  destruct dm; reflexivity.
Qed.

Lemma metal_log2_exponent_witness :
  metal_log2 LP64 false (2 ^ 63) = Returns 63 /\
  metal_log2 LP64 false 1 = Returns 0 /\
  metal_log2 LP64 false 2 = Returns 1 /\
  metal_log2 LP64 false 1024 = Returns 10 /\
  metal_log2 LP64 false 3 = AssertFailed.
Proof.
  apply (metal_log2_exponent LP64 false 63). vm_compute. split; [discriminate | reflexivity].
Defined.

(** C10.  On the input 0, which is no power of two, the asserted condition
    [(in & (in - 1)) == 0] holds, so the assertion does not fail, and
    [metal_log2] returns 0, with the assertion compiled in or out. *)
Theorem metal_log2_zero (dm : data_model) (ndebug : bool) :
  metal_log2_assertion dm 0 = true /\
  metal_log2 dm ndebug 0 = Returns 0 /\
  ~ (exists k, 0 <= k /\ 2 ^ k = 0).
Proof.
  split; [destruct dm; reflexivity|].
  split; [destruct dm, ndebug; reflexivity|].
  intros (k & Hk & Hz). pose proof (Z.pow_pos_nonneg 2 k). lia.
Qed.

(** * The iteration macros *)

(** A [next] that answers the index it is given keeps the loop on that
    index: the condition [bit < max] stays true and the body sees the same
    index in every iteration. *)
Lemma for_each_loop_stuck (next : Z -> outcome Z) (max bit : Z) (iters : nat) :
  bit < max -> next bit = Returns bit ->
  for_each_loop next max iters bit = (repeat bit iters, Running).
Proof.
  intros Hlt Hnext. induction iters as [|iters IH]; cbn [for_each_loop repeat].
  - destruct (Z.ltb_spec bit max); [reflexivity | lia].
  - destruct (Z.ltb_spec bit max); [|lia]. rewrite Hnext, IH. reflexivity.
Qed.

(** Where the first call answers the bound the loop is over at once. *)
Lemma for_each_none (next : Z -> Z -> outcome Z) (max : Z) (iters : nat) :
  next 0 max = Returns max -> for_each next max iters = ([], Exited).
Proof.
  intros H. unfold for_each. rewrite H.
  destruct iters; cbn; rewrite Z.ltb_irrefl; reflexivity.
Qed.

(** Where the first call answers an index below the bound and the call
    from that index answers it again, the loop never leaves it. *)
Lemma for_each_stuck (next : Z -> Z -> outcome Z) (max r : Z) (iters : nat) :
  next 0 max = Returns r -> r < max -> next r max = Returns r ->
  for_each next max iters = (repeat r iters, Running).
Proof.
  intros Hfirst Hlt Hagain. unfold for_each. rewrite Hfirst.
  apply for_each_loop_stuck; assumption.
Qed.

(** C1 at a failing input.  Over the bitmap with the bits [{2, 5, 9}] set
    and the bound 10, in every data model and for every number of
    iterations, the loop of [metal_bitmap_for_each_set_bit] is still running
    and its body has seen the index 2 each time: the step
    [metal_bitmap_next_set_bit(bitmap, bit, max)] scans from [bit] itself,
    which is set, so 5 and 9 are never reached and the loop never ends. *)
Theorem for_each_set_bit_2_5_9 (dm : data_model) (iters : nat) :
  metal_bitmap_for_each_set_bit dm bits_2_5_9 10 iters = (repeat 2 iters, Running).
Proof.
  apply for_each_stuck; [destruct dm; reflexivity | lia | destruct dm; reflexivity].
Qed.

(** C2 at a failing input.  Over the same bitmap and bound the loop of
    [metal_bitmap_for_each_clear_bit] is still running after every number of
    iterations and its body has seen the index 0 each time; the indices
    1, 3, 4, 6, 7 and 8 are never reached. *)
Theorem for_each_clear_bit_2_5_9 (dm : data_model) (iters : nat) :
  metal_bitmap_for_each_clear_bit dm bits_2_5_9 10 iters = (repeat 0 iters, Running).
Proof.
  apply for_each_stuck; [destruct dm; reflexivity | lia | destruct dm; reflexivity].
Qed.

(** C3 at a failing input.  Over a one-bit range whose bit is set the loop
    of [metal_bitmap_for_each_set_bit] has not exited after any number of
    iterations, and over a one-bit range whose bit is clear neither has the
    loop of [metal_bitmap_for_each_clear_bit]. *)
Theorem for_each_never_exits (dm : data_model) (iters : nat) :
  snd (metal_bitmap_for_each_set_bit dm [1] 1 iters) = Running /\
  snd (metal_bitmap_for_each_clear_bit dm [0] 1 iters) = Running.
Proof.
  split.
  - unfold metal_bitmap_for_each_set_bit.
    rewrite (for_each_stuck _ 1 0); [reflexivity | destruct dm; reflexivity | lia |
                                      destruct dm; reflexivity].
  - unfold metal_bitmap_for_each_clear_bit.
    rewrite (for_each_stuck _ 1 0); [reflexivity | destruct dm; reflexivity | lia |
                                      destruct dm; reflexivity].
Qed.

(** * Further properties *)

(** The scans return on every range inside the storage, in every data
    model: the budget of [max - start] increments is never exhausted and no
    access leaves the storage. *)
Theorem next_bit_returns (dm : data_model) (bitmap : list Z) (start max : Z) :
  0 <= start <= max ->
  max <= capacity dm bitmap ->
  max <= INT_MAX dm + 1 ->
  (exists r, metal_bitmap_next_set_bit dm bitmap start max = Returns r /\
             start <= r <= max) /\
  (exists r, metal_bitmap_next_clear_bit dm bitmap start max = Returns r /\
             start <= r <= max).
Proof.
  intros Hstart Hcap Hint.
  assert (forall i, start <= i < max ->
            exists w, addressable dm bitmap i /\
                      bitmap !! Z.to_nat (i / ulong_bits dm) = Some w) as Hword.
  { intros i Hi.
    assert (addressable dm bitmap i) as Ha by (apply (addressable_below dm bitmap max); lia).
    destruct (addressable_word _ _ _ Ha) as [w Hw]. eauto. }
  split.
  - destruct (scan_loop_first dm (metal_bitmap_is_bit_set dm bitmap) start max)
      with (fuel := Z.to_nat (max - start)) (start := start)
      as (r & Hr & Hrange & _); try lia.
    + intros i Hi. destruct (Hword i Hi) as (w & Ha & Hw).
      destruct (is_bit_set_answer dm bitmap i w Ha Hw) as (s & Hs & _). eauto.
    + exists r. split; assumption.
  - destruct (scan_loop_first dm (metal_bitmap_is_bit_clear dm bitmap) start max)
      with (fuel := Z.to_nat (max - start)) (start := start)
      as (r & Hr & Hrange & _); try lia.
    + intros i Hi. destruct (Hword i Hi) as (w & Ha & Hw).
      destruct (is_bit_clear_answer dm bitmap i w Ha Hw) as (c & Hc & _). eauto.
    + exists r. split; assumption.
Qed.

Lemma next_bit_returns_witness :
  (exists r, metal_bitmap_next_set_bit LP64 [0; 4294967296] 0 128 = Returns r /\
             0 <= r <= 128) /\
  (exists r, metal_bitmap_next_clear_bit LP64 [0; 4294967296] 0 128 = Returns r /\
             0 <= r <= 128).
Proof.
  apply (next_bit_returns LP64 [0; 4294967296] 0 128).
  - lia.
  - vm_compute. discriminate.
  - vm_compute. discriminate.
Defined.

(** The doubling search either returns or shifts by the width of
    [unsigned long] before its budget is spent. *)
Lemma metal_log2_loop_budget (dm : data_model) (inp : Z) (fuel : nat) (result : Z) :
  0 <= result -> ulong_bits dm <= result + Z.of_nat fuel ->
  metal_log2_loop dm inp fuel result <> OutOfFuel.
Proof.
  revert result. induction fuel as [|fuel IH]; intros result Hr Hfuel;
    cbn [metal_log2_loop]; unfold metal_bit.
  - destruct (Z.leb_spec 0 result); [|lia].
    destruct (Z.ltb_spec result (ulong_bits dm)); [lia|]. cbn. discriminate.
  - destruct (Z.leb_spec 0 result); [|lia].
    destruct (Z.ltb_spec result (ulong_bits dm)) as [Hlt|]; cbn; [|discriminate].
    destruct (_ <? inp); [|discriminate].
    assert (to_ulong dm (result + 1) = result + 1) as ->.
    { unfold to_ulong, wrap. apply Z.mod_small.
      pose proof (Z.pow_gt_lin_r 2 (ulong_bits dm)). lia. }
    apply IH; lia.
Qed.

(** [metal_log2] never exhausts its budget of [ulong_bits] increments,
    whatever its argument: the call ends, by returning, by the failed
    assertion or at the undefined shift. *)
Theorem metal_log2_budget (dm : data_model) (ndebug : bool) (inp : Z) :
  metal_log2 dm ndebug inp <> OutOfFuel.
Proof.
  unfold metal_log2. destruct (_ || _); [|discriminate].
  apply metal_log2_loop_budget; [lia|]. pose proof (ulong_bits_pos dm). lia.
Qed.

(** The first call of [metal_bitmap_for_each_set_bit]'s loop header. *)
Lemma next_set_bit_from_0 (dm : data_model) (bitmap : list Z) (max : Z) :
  0 <= max <= capacity dm bitmap ->
  max <= INT_MAX dm + 1 ->
  (forall i, 0 <= i < max -> narrow dm i) ->
  exists r, metal_bitmap_next_set_bit dm bitmap 0 max = Returns r /\
    first_bit_with dm bitmap true 0 max r.
Proof.
  intros Hmax Hint Hnarrow. unfold metal_bitmap_next_set_bit.
  apply scan_loop_first_bit; [lia | assumption |].
  intros i Hi. apply (is_bit_set_narrow dm bitmap 0 max); (assumption || lia).
Qed.

(** Where some bit in [[0, max)] is set, the loop of
    [metal_bitmap_for_each_set_bit] stays on the first set index for
    ever. *)
Theorem for_each_set_bit_stuck (dm : data_model) (bitmap : list Z) (max b : Z) :
  max <= capacity dm bitmap ->
  max <= INT_MAX dm + 1 ->
  (forall i, 0 <= i < max -> narrow dm i) ->
  0 <= b < max ->
  stored_bit dm bitmap b = Some true ->
  exists r, 0 <= r <= b /\ stored_bit dm bitmap r = Some true /\
    forall iters,
      metal_bitmap_for_each_set_bit dm bitmap max iters = (repeat r iters, Running).
Proof.
  intros Hcap Hint Hnarrow Hb Hset.
  destruct (next_set_bit_from_0 dm bitmap max) as (r & Hr & Hmax & Hfirst);
    try assumption; [lia|].
  assert (r <> max) as Hne.
  { intros ->. destruct Hmax as [Hnone _]. apply (Hnone eq_refl b Hb Hset). }
  destruct (Hfirst Hne) as (Hrange & Hrset & Hbefore).
  exists r. split.
  { destruct (Z_le_gt_dec r b); [lia|]. exfalso. apply (Hbefore b); [lia | assumption]. }
  split; [assumption|]. intros iters.
  apply for_each_stuck; [assumption | lia |].
  destruct (is_bit_set_narrow dm bitmap 0 max) with (i := r) as (s & Hs & Hiff);
    try assumption; try lia.
  apply (scan_loop_here dm _ max _ r s); [lia | assumption | apply Hiff; assumption].
Qed.

Lemma for_each_set_bit_stuck_witness :
  exists r, 0 <= r <= 9 /\ stored_bit LP64 bits_2_5_9 r = Some true /\
    forall iters,
      metal_bitmap_for_each_set_bit LP64 bits_2_5_9 10 iters = (repeat r iters, Running).
Proof.
  apply (for_each_set_bit_stuck LP64 bits_2_5_9 10 9).
  - vm_compute. discriminate.
  - vm_compute. discriminate.
  - intros i Hi. unfold narrow. change (ulong_bits LP64) with 64.
    change (int_bits LP64) with 32. rewrite Z.mod_small; lia.
  - lia.
  - reflexivity.
Defined.

(** Where no bit in [[0, max)] is set, the loop of
    [metal_bitmap_for_each_set_bit] runs its body not once and exits. *)
Theorem for_each_set_bit_none (dm : data_model) (bitmap : list Z) (max : Z)
  (iters : nat) :
  0 <= max <= capacity dm bitmap ->
  max <= INT_MAX dm + 1 ->
  (forall i, 0 <= i < max -> narrow dm i) ->
  (forall i, 0 <= i < max -> stored_bit dm bitmap i <> Some true) ->
  metal_bitmap_for_each_set_bit dm bitmap max iters = ([], Exited).
Proof.
  intros Hmax Hint Hnarrow Hnone.
  destruct (next_set_bit_from_0 dm bitmap max) as (r & Hr & Hiff & _);
    try assumption.
  apply for_each_none. rewrite Hr. f_equal. apply Hiff, Hnone.
Qed.

Lemma for_each_set_bit_none_witness :
  metal_bitmap_for_each_set_bit ILP32 bits_2_5_9 2 7 = ([], Exited).
Proof.
  apply (for_each_set_bit_none ILP32 bits_2_5_9 2 7).
  - vm_compute. split; discriminate.
  - vm_compute. discriminate.
  - intros i Hi. unfold narrow. change (ulong_bits ILP32) with 32.
    change (int_bits ILP32) with 32. apply Z.mod_pos_bound. lia.
  - intros i Hi. assert (i = 0 \/ i = 1) as [-> | ->] by lia; discriminate.
Defined.

(** An index within the storage whose in-word position is at or above the
    width of [int] always tests as not set, whatever the storage holds. *)
Theorem is_bit_set_wide (dm : data_model) (bitmap : list Z) (b : Z) :
  addressable dm bitmap b ->
  ~ narrow dm b ->
  metal_bitmap_is_bit_set dm bitmap b = Returns 0 /\
  metal_bitmap_is_bit_clear dm bitmap b = Returns 1.
Proof.
  intros Hb Hwide. destruct (addressable_word _ _ _ Hb) as [w Hw].
  assert (metal_bitmap_is_bit_set dm bitmap b = Returns 0) as Hs.
  { destruct (is_bit_set_answer dm bitmap b w Hb Hw) as (s & Hs & Hiff).
    rewrite Hs. f_equal. destruct (Z.eq_dec s 0) as [|Hnz]; [assumption|].
    apply Hiff in Hnz. destruct Hnz as [_ Hn]. contradiction. }
  split; [assumption|]. unfold metal_bitmap_is_bit_clear. rewrite Hs. reflexivity.
Qed.

Lemma is_bit_set_wide_witness :
  metal_bitmap_is_bit_set LP64 [18446744073709551615] 40 = Returns 0 /\
  metal_bitmap_is_bit_clear LP64 [18446744073709551615] 40 = Returns 1.
Proof.
  apply (is_bit_set_wide LP64 [18446744073709551615] 40).
  - unfold addressable. vm_compute. repeat split; discriminate.
  - unfold narrow. vm_compute. intros H. discriminate H.
Defined.

(** Setting a bit twice leaves the storage as setting it once does. *)
Theorem set_bit_idempotent (dm : data_model) (bitmap : list Z) (b : Z) :
  addressable dm bitmap b ->
  exists bitmap', metal_bitmap_set_bit dm bitmap b = Returns bitmap' /\
    metal_bitmap_set_bit dm bitmap' b = Returns bitmap'.
Proof.
  intros Hb. destruct (addressable_word _ _ _ Hb) as [w Hw].
  pose proof (lookup_lt_Some _ _ _ Hw) as Hlen.
  eexists. split; [apply (set_bit_addressable dm bitmap b w Hb Hw)|].
  rewrite (set_bit_addressable dm _ b (Z.lor w (2 ^ (b mod ulong_bits dm)))).
  - rewrite list_insert_insert_eq, <- Z.lor_assoc, Z.lor_diag. reflexivity.
  - apply addressable_insert, Hb.
  - apply list_lookup_insert_eq. assumption.
Qed.

Lemma set_bit_idempotent_witness :
  exists bitmap', metal_bitmap_set_bit LP64 [0; 0] 100 = Returns bitmap' /\
    metal_bitmap_set_bit LP64 bitmap' 100 = Returns bitmap'.
Proof.
  apply (set_bit_idempotent LP64 [0; 0] 100).
  unfold addressable. vm_compute. repeat split; discriminate.
Defined.

(** * What setting and clearing write to the storage *)

Lemma testbit_clear_other (dm : data_model) (w p q : Z) :
  0 <= p -> 0 <= q < ulong_bits dm -> p <> q ->
  Z.testbit (Z.land w (ulong_not dm (2 ^ p))) q = Z.testbit w q.
Proof.
  intros Hp Hq Hne. unfold ulong_not, to_ulong, wrap.
  rewrite Z.land_spec, Z.mod_pow2_bits_low, Z.lnot_spec by lia.
  rewrite Z.pow2_bits_eqb by assumption.
  destruct (Z.eqb_spec p q); [contradiction | apply andb_true_r].
Qed.

Lemma testbit_above (dm : data_model) (w n : Z) :
  0 <= w < 2 ^ ulong_bits dm -> ulong_bits dm <= n -> Z.testbit w n = false.
Proof.
  intros Hw Hn. rewrite <- (Z.mod_small w (2 ^ ulong_bits dm)) by assumption.
  apply Z.mod_pow2_bits_high. pose proof (ulong_bits_pos dm). lia.
Qed.

(** A write to the word of [b] that keeps every position but that of [b]
    keeps every bit but [b]. *)
Lemma stored_bit_other (dm : data_model) (bitmap : list Z) (b c w w' : Z) :
  0 <= b -> 0 <= c -> c <> b ->
  bitmap !! Z.to_nat (b / ulong_bits dm) = Some w ->
  (forall q, 0 <= q < ulong_bits dm -> q <> b mod ulong_bits dm ->
             Z.testbit w' q = Z.testbit w q) ->
  stored_bit dm (<[Z.to_nat (b / ulong_bits dm) := w']> bitmap) c
  = stored_bit dm bitmap c.
Proof.
  intros Hb Hc Hne Hw Hkeep. unfold stored_bit.
  destruct (decide (Z.to_nat (b / ulong_bits dm) = Z.to_nat (c / ulong_bits dm)))
    as [Hsame|Hother].
  - rewrite <- Hsame, Hw, list_lookup_insert_eq by (apply lookup_lt_Some in Hw; assumption).
    cbn. f_equal. apply Hkeep; [apply position_range|].
    intros Hpos. apply Hne. apply (index_split dm c b); auto.
  - rewrite list_lookup_insert_ne by assumption. reflexivity.
Qed.

Lemma stored_bit_written (dm : data_model) (bitmap : list Z) (b w w' : Z) :
  bitmap !! Z.to_nat (b / ulong_bits dm) = Some w ->
  stored_bit dm (<[Z.to_nat (b / ulong_bits dm) := w']> bitmap) b
  = Some (Z.testbit w' (b mod ulong_bits dm)).
Proof.
  intros Hw. unfold stored_bit.
  rewrite list_lookup_insert_eq by (apply lookup_lt_Some in Hw; assumption).
  reflexivity.
Qed.

Lemma set_bit_writes (dm : data_model) (bitmap : list Z) (b : Z) :
  addressable dm bitmap b ->
  exists bitmap', metal_bitmap_set_bit dm bitmap b = Returns bitmap' /\
    length bitmap' = length bitmap /\
    stored_bit dm bitmap' b = Some true /\
    forall c, 0 <= c -> c <> b -> stored_bit dm bitmap' c = stored_bit dm bitmap c.
Proof.
  intros Hb. destruct (addressable_word _ _ _ Hb) as [w Hw].
  pose proof (position_range dm b) as Hp.
  eexists. split; [apply (set_bit_addressable dm bitmap b w Hb Hw)|].
  split; [apply length_insert|]. split.
  - rewrite (stored_bit_written dm bitmap b w _ Hw), testbit_set by lia. reflexivity.
  - intros c Hc Hne. apply (stored_bit_other dm bitmap b c w); auto; [apply Hb|].
    intros q Hq Hqp. apply testbit_set_other; [lia | auto].
Qed.

Lemma clear_bit_writes (dm : data_model) (bitmap : list Z) (b : Z) :
  addressable dm bitmap b ->
  exists bitmap', metal_bitmap_clear_bit dm bitmap b = Returns bitmap' /\
    length bitmap' = length bitmap /\
    stored_bit dm bitmap' b = Some false /\
    forall c, 0 <= c -> c <> b -> stored_bit dm bitmap' c = stored_bit dm bitmap c.
Proof.
  intros Hb. destruct (addressable_word _ _ _ Hb) as [w Hw].
  pose proof (position_range dm b) as Hp.
  eexists. split; [apply (clear_bit_addressable dm bitmap b w Hb Hw)|].
  split; [apply length_insert|]. split.
  - rewrite (stored_bit_written dm bitmap b w _ Hw), testbit_clear by lia. reflexivity.
  - intros c Hc Hne. apply (stored_bit_other dm bitmap b c w); auto; [apply Hb|].
    intros q Hq Hqp. apply testbit_clear_other; [lia | assumption | auto].
Qed.

(** The storage after [metal_bitmap_set_bit] and after
    [metal_bitmap_clear_bit] on an index within it, in every data model and
    at every in-word position: the same number of words, the bit of the
    index 1 after a set and 0 after a clear, and every other bit as it
    was. *)
Theorem set_clear_storage (dm : data_model) (bitmap : list Z) (b : Z) :
  addressable dm bitmap b ->
  (exists bitmap', metal_bitmap_set_bit dm bitmap b = Returns bitmap' /\
     length bitmap' = length bitmap /\
     stored_bit dm bitmap' b = Some true /\
     forall c, 0 <= c -> c <> b ->
               stored_bit dm bitmap' c = stored_bit dm bitmap c) /\
  (exists bitmap', metal_bitmap_clear_bit dm bitmap b = Returns bitmap' /\
     length bitmap' = length bitmap /\
     stored_bit dm bitmap' b = Some false /\
     forall c, 0 <= c -> c <> b ->
               stored_bit dm bitmap' c = stored_bit dm bitmap c).
Proof.
  intros Hb. split.
  - apply set_bit_writes. assumption.
  - apply clear_bit_writes. assumption.
Qed.

Lemma set_clear_storage_witness :
  (exists bitmap', metal_bitmap_set_bit LP64 [0; 0] 100 = Returns bitmap' /\
     length bitmap' = length [0; 0] /\
     stored_bit LP64 bitmap' 100 = Some true /\
     forall c, 0 <= c -> c <> 100 ->
               stored_bit LP64 bitmap' c = stored_bit LP64 [0; 0] c) /\
  (exists bitmap', metal_bitmap_clear_bit LP64 [0; 0] 100 = Returns bitmap' /\
     length bitmap' = length [0; 0] /\
     stored_bit LP64 bitmap' 100 = Some false /\
     forall c, 0 <= c -> c <> 100 ->
               stored_bit LP64 bitmap' c = stored_bit LP64 [0; 0] c).
Proof.
  apply (set_clear_storage LP64 [0; 0] 100).
  unfold addressable. vm_compute. repeat split; discriminate.
Defined.

(** ** Words stay words *)

Lemma lor_pow2_range (dm : data_model) (w p : Z) :
  0 <= w < 2 ^ ulong_bits dm -> 0 <= p < ulong_bits dm ->
  0 <= Z.lor w (2 ^ p) < 2 ^ ulong_bits dm.
Proof.
  intros Hw Hp. pose proof (ulong_bits_pos dm) as HW.
  assert (0 <= Z.lor w (2 ^ p)) as Hnn.
  { apply Z.lor_nonneg. split; [lia | apply Z.pow_nonneg; lia]. }
  split; [assumption|].
  destruct (Z.eq_dec (Z.lor w (2 ^ p)) 0) as [->|Hnz]; [apply Z.pow_pos_nonneg; lia|].
  apply Z.log2_lt_pow2; [lia|]. rewrite Z.log2_lor by (try lia; apply Z.pow_nonneg; lia).
  rewrite Z.log2_pow2 by lia. apply Z.max_lub_lt; [|lia].
  destruct (Z.eq_dec w 0) as [->|]; [cbn; lia|]. apply Z.log2_lt_pow2; lia.
Qed.

Lemma land_range (w m bound : Z) :
  0 <= w < bound -> 0 <= Z.land w m < bound.
Proof.
  intros Hw. assert (0 <= Z.land w m <= w); [|lia].
  apply Z.ldiff_le; [lia|]. apply Z.bits_inj_0. intros n.
  rewrite Z.ldiff_spec, Z.land_spec.
  destruct (Z.testbit w n), (Z.testbit m n); reflexivity.
Qed.

Lemma well_formed_insert (dm : data_model) (bitmap : list Z) (i : nat) (w : Z) :
  well_formed dm bitmap -> 0 <= w < 2 ^ ulong_bits dm ->
  well_formed dm (<[i := w]> bitmap).
Proof. intros Hwf Hw. apply Forall_insert; assumption. Qed.

Lemma well_formed_word (dm : data_model) (bitmap : list Z) (i : nat) (w : Z) :
  well_formed dm bitmap -> bitmap !! i = Some w -> 0 <= w < 2 ^ ulong_bits dm.
Proof. intros Hwf Hw. apply (Forall_lookup_1 _ _ _ _ Hwf Hw). Qed.

(** [metal_bitmap_set_bit] and [metal_bitmap_clear_bit] keep every word of
    the storage a value of [unsigned long]. *)
Theorem set_clear_well_formed (dm : data_model) (bitmap : list Z) (b : Z) :
  well_formed dm bitmap ->
  addressable dm bitmap b ->
  (exists bitmap', metal_bitmap_set_bit dm bitmap b = Returns bitmap' /\
                   well_formed dm bitmap') /\
  (exists bitmap', metal_bitmap_clear_bit dm bitmap b = Returns bitmap' /\
                   well_formed dm bitmap').
Proof.
  intros Hwf Hb. destruct (addressable_word _ _ _ Hb) as [w Hw].
  pose proof (well_formed_word dm bitmap _ w Hwf Hw) as Hrange.
  pose proof (position_range dm b) as Hp.
  split; eexists.
  - split; [apply (set_bit_addressable dm bitmap b w Hb Hw)|].
    apply well_formed_insert; [assumption | apply lor_pow2_range; assumption].
  - split; [apply (clear_bit_addressable dm bitmap b w Hb Hw)|].
    apply well_formed_insert; [assumption | apply land_range; assumption].
Qed.

Lemma set_clear_well_formed_witness :
  (exists bitmap', metal_bitmap_set_bit ILP32 [7; 0] 40 = Returns bitmap' /\
                   well_formed ILP32 bitmap') /\
  (exists bitmap', metal_bitmap_clear_bit ILP32 [7; 0] 40 = Returns bitmap' /\
                   well_formed ILP32 bitmap').
Proof.
  apply (set_clear_well_formed ILP32 [7; 0] 40).
  - unfold well_formed. repeat constructor; vm_compute; discriminate || reflexivity.
  - unfold addressable. vm_compute. repeat split; discriminate.
Defined.

(** ** Round trips *)

Lemma set_then_clear_word (dm : data_model) (w p : Z) :
  0 <= w < 2 ^ ulong_bits dm -> 0 <= p < ulong_bits dm ->
  Z.testbit w p = false ->
  Z.land (Z.lor w (2 ^ p)) (ulong_not dm (2 ^ p)) = w.
Proof.
  intros Hw Hp Hbit. apply Z.bits_inj'. intros n Hn.
  destruct (Z_lt_le_dec n (ulong_bits dm)) as [Hlt|Hge].
  - destruct (Z.eq_dec p n) as [<-|Hne].
    + rewrite testbit_clear by assumption. auto.
    + rewrite testbit_clear_other, testbit_set_other by (auto; lia). reflexivity.
  - rewrite (testbit_above dm w n) by assumption.
    unfold ulong_not, to_ulong, wrap.
    rewrite Z.land_spec, Z.mod_pow2_bits_high by lia. apply andb_false_r.
Qed.

Lemma clear_then_set_word (dm : data_model) (w p : Z) :
  0 <= w < 2 ^ ulong_bits dm -> 0 <= p < ulong_bits dm ->
  Z.testbit w p = true ->
  Z.lor (Z.land w (ulong_not dm (2 ^ p))) (2 ^ p) = w.
Proof.
  intros Hw Hp Hbit. apply Z.bits_inj'. intros n Hn.
  destruct (Z.eq_dec p n) as [<-|Hne].
  - rewrite testbit_set by lia. auto.
  - rewrite testbit_set_other by (auto; lia).
    destruct (Z_lt_le_dec n (ulong_bits dm)) as [Hlt|Hge].
    + apply testbit_clear_other; (lia || auto).
    + rewrite (testbit_above dm w n) by assumption.
      unfold ulong_not, to_ulong, wrap.
      rewrite Z.land_spec, Z.mod_pow2_bits_high by lia. apply andb_false_r.
Qed.

(** Round trip on a storage of [unsigned long] words: setting a bit that
    was clear and clearing it again gives the storage back. *)
Theorem set_then_clear_restores (dm : data_model) (bitmap : list Z) (b : Z) :
  well_formed dm bitmap ->
  addressable dm bitmap b ->
  stored_bit dm bitmap b = Some false ->
  exists bitmap', metal_bitmap_set_bit dm bitmap b = Returns bitmap' /\
                  metal_bitmap_clear_bit dm bitmap' b = Returns bitmap.
Proof.
  intros Hwf Hb. destruct (addressable_word _ _ _ Hb) as [w Hw].
  pose proof (well_formed_word dm bitmap _ w Hwf Hw) as Hrange.
  pose proof (position_range dm b) as Hp.
  pose proof (lookup_lt_Some _ _ _ Hw) as Hlen.
  rewrite (stored_bit_addressable dm bitmap b w Hw). intros [= Hbit].
  eexists. split; [apply (set_bit_addressable dm bitmap b w Hb Hw)|].
  rewrite (clear_bit_addressable dm _ b (Z.lor w (2 ^ (b mod ulong_bits dm)))).
  - rewrite list_insert_insert_eq, set_then_clear_word by assumption.
    rewrite list_insert_id by assumption. reflexivity.
  - apply addressable_insert, Hb.
  - apply list_lookup_insert_eq. assumption.
Qed.

Lemma set_then_clear_restores_witness :
  exists bitmap', metal_bitmap_set_bit LP64 [5; 9] 65 = Returns bitmap' /\
                  metal_bitmap_clear_bit LP64 bitmap' 65 = Returns [5; 9].
Proof.
  apply (set_then_clear_restores LP64 [5; 9] 65).
  - unfold well_formed. repeat constructor; vm_compute; discriminate || reflexivity.
  - unfold addressable. vm_compute. repeat split; discriminate.
  - reflexivity.
Defined.

(** The other round trip: clearing a bit that was set and setting it again
    gives the storage back. *)
Theorem clear_then_set_restores (dm : data_model) (bitmap : list Z) (b : Z) :
  well_formed dm bitmap ->
  addressable dm bitmap b ->
  stored_bit dm bitmap b = Some true ->
  exists bitmap', metal_bitmap_clear_bit dm bitmap b = Returns bitmap' /\
                  metal_bitmap_set_bit dm bitmap' b = Returns bitmap.
Proof.
  intros Hwf Hb. destruct (addressable_word _ _ _ Hb) as [w Hw].
  pose proof (well_formed_word dm bitmap _ w Hwf Hw) as Hrange.
  pose proof (position_range dm b) as Hp.
  pose proof (lookup_lt_Some _ _ _ Hw) as Hlen.
  rewrite (stored_bit_addressable dm bitmap b w Hw). intros [= Hbit].
  eexists. split; [apply (clear_bit_addressable dm bitmap b w Hb Hw)|].
  rewrite (set_bit_addressable dm _ b
             (Z.land w (ulong_not dm (2 ^ (b mod ulong_bits dm))))).
  - rewrite list_insert_insert_eq, clear_then_set_word by assumption.
    rewrite list_insert_id by assumption. reflexivity.
  - apply addressable_insert, Hb.
  - apply list_lookup_insert_eq. assumption.
Qed.

Lemma clear_then_set_restores_witness :
  exists bitmap', metal_bitmap_clear_bit LP64 [5; 9] 64 = Returns bitmap' /\
                  metal_bitmap_set_bit LP64 bitmap' 64 = Returns [5; 9].
Proof.
  apply (clear_then_set_restores LP64 [5; 9] 64).
  - unfold well_formed. repeat constructor; vm_compute; discriminate || reflexivity.
  - unfold addressable. vm_compute. repeat split; discriminate.
  - reflexivity.
Defined.

(** * The scans and the tests agree *)

(** In every data model, on every range inside the storage, each scan
    returns the first index of the range at which its test answers
    non-zero, or the bound where the test answers zero on the whole
    range. *)
Theorem next_bit_first_answer (dm : data_model) (bitmap : list Z) (start max : Z) :
  0 <= start <= max ->
  max <= capacity dm bitmap ->
  max <= INT_MAX dm + 1 ->
  (exists r, metal_bitmap_next_set_bit dm bitmap start max = Returns r /\
     start <= r <= max /\
     (forall i, start <= i < r -> metal_bitmap_is_bit_set dm bitmap i = Returns 0) /\
     (r < max -> exists s, metal_bitmap_is_bit_set dm bitmap r = Returns s /\ s <> 0)) /\
  (exists r, metal_bitmap_next_clear_bit dm bitmap start max = Returns r /\
     start <= r <= max /\
     (forall i, start <= i < r -> metal_bitmap_is_bit_clear dm bitmap i = Returns 0) /\
     (r < max -> exists c, metal_bitmap_is_bit_clear dm bitmap r = Returns c /\ c <> 0)).
Proof.
  intros Hstart Hcap Hint.
  assert (forall i, start <= i < max ->
            exists w, addressable dm bitmap i /\
                      bitmap !! Z.to_nat (i / ulong_bits dm) = Some w) as Hword.
  { intros i Hi.
    assert (addressable dm bitmap i) as Ha by (apply (addressable_below dm bitmap max); lia).
    destruct (addressable_word _ _ _ Ha) as [w Hw]. eauto. }
  split.
  - apply (scan_loop_first dm (metal_bitmap_is_bit_set dm bitmap) start max); try lia.
    intros i Hi. destruct (Hword i Hi) as (w & Ha & Hw).
    destruct (is_bit_set_answer dm bitmap i w Ha Hw) as (s & Hs & _). eauto.
  - apply (scan_loop_first dm (metal_bitmap_is_bit_clear dm bitmap) start max); try lia.
    intros i Hi. destruct (Hword i Hi) as (w & Ha & Hw).
    destruct (is_bit_clear_answer dm bitmap i w Ha Hw) as (c & Hc & _). eauto.
Qed.

Lemma next_bit_first_answer_witness :
  (exists r, metal_bitmap_next_set_bit LP64 [1099511627776] 0 64 = Returns r /\
     0 <= r <= 64 /\
     (forall i, 0 <= i < r ->
        metal_bitmap_is_bit_set LP64 [1099511627776] i = Returns 0) /\
     (r < 64 -> exists s,
        metal_bitmap_is_bit_set LP64 [1099511627776] r = Returns s /\ s <> 0)) /\
  (exists r, metal_bitmap_next_clear_bit LP64 [1099511627776] 0 64 = Returns r /\
     0 <= r <= 64 /\
     (forall i, 0 <= i < r ->
        metal_bitmap_is_bit_clear LP64 [1099511627776] i = Returns 0) /\
     (r < 64 -> exists c,
        metal_bitmap_is_bit_clear LP64 [1099511627776] r = Returns c /\ c <> 0)).
Proof.
  apply (next_bit_first_answer LP64 [1099511627776] 0 64).
  - lia.
  - vm_compute. discriminate.
  - vm_compute. discriminate.
Defined.

(** * The iteration over clear bits *)

Lemma next_clear_bit_from (dm : data_model) (bitmap : list Z) (start max : Z) :
  0 <= start <= max ->
  max <= capacity dm bitmap ->
  max <= INT_MAX dm + 1 ->
  (forall i, 0 <= i < max -> narrow dm i) ->
  exists r, metal_bitmap_next_clear_bit dm bitmap start max = Returns r /\
    first_bit_with dm bitmap false start max r.
Proof.
  intros Hstart Hcap Hint Hnarrow. unfold metal_bitmap_next_clear_bit.
  apply scan_loop_first_bit; [lia | assumption |].
  intros i Hi. apply (is_bit_clear_narrow dm bitmap start max); try assumption; try lia.
  intros j Hj. apply Hnarrow. lia.
Qed.


(** Where some bit in [[0, max)] is clear, the loop of
    [metal_bitmap_for_each_clear_bit], with a body that leaves the bitmap
    alone, stays on the first clear index for ever. *)
Theorem for_each_clear_bit_stuck (dm : data_model) (bitmap : list Z) (max b : Z) :
  max <= capacity dm bitmap ->
  max <= INT_MAX dm + 1 ->
  (forall i, 0 <= i < max -> narrow dm i) ->
  0 <= b < max ->
  stored_bit dm bitmap b = Some false ->
  exists r, 0 <= r <= b /\ stored_bit dm bitmap r = Some false /\
    forall iters,
      metal_bitmap_for_each_clear_bit dm bitmap max iters = (repeat r iters, Running).
Proof.
  intros Hcap Hint Hnarrow Hb Hclear.
  destruct (next_clear_bit_from dm bitmap 0 max) as (r & Hr & Hmax & Hfirst);
    try assumption; [lia|].
  assert (r <> max) as Hne.
  { intros ->. destruct Hmax as [Hnone _]. apply (Hnone eq_refl b Hb Hclear). }
  destruct (Hfirst Hne) as (Hrange & Hrclear & Hbefore).
  exists r. split.
  { destruct (Z_le_gt_dec r b); [lia|]. exfalso. apply (Hbefore b); [lia | assumption]. }
  split; [assumption|]. intros iters.
  apply for_each_stuck; [assumption | lia |].
  destruct (is_bit_clear_narrow dm bitmap 0 max) with (i := r) as (c & Hc & Hiff);
    try assumption; try lia.
  apply (scan_loop_here dm _ max _ r c); [lia | assumption | apply Hiff; assumption].
Qed.

Lemma for_each_clear_bit_stuck_witness :
  exists r, 0 <= r <= 1 /\ stored_bit ILP32 bits_2_5_9 r = Some false /\
    forall iters,
      metal_bitmap_for_each_clear_bit ILP32 bits_2_5_9 10 iters = (repeat r iters, Running).
Proof.
  apply (for_each_clear_bit_stuck ILP32 bits_2_5_9 10 1).
  - vm_compute. discriminate.
  - vm_compute. discriminate.
  - intros i Hi. unfold narrow. change (ulong_bits ILP32) with 32.
    change (int_bits ILP32) with 32. apply Z.mod_pos_bound. lia.
  - lia.
  - reflexivity.
Defined.

(** Where no bit in [[0, max)] is clear, the loop of
    [metal_bitmap_for_each_clear_bit] runs its body not once and exits. *)
Theorem for_each_clear_bit_none (dm : data_model) (bitmap : list Z) (max : Z)
  (iters : nat) :
  0 <= max <= capacity dm bitmap ->
  max <= INT_MAX dm + 1 ->
  (forall i, 0 <= i < max -> narrow dm i) ->
  (forall i, 0 <= i < max -> stored_bit dm bitmap i <> Some false) ->
  metal_bitmap_for_each_clear_bit dm bitmap max iters = ([], Exited).
Proof.
  intros Hmax Hint Hnarrow Hnone.
  destruct (next_clear_bit_from dm bitmap 0 max) as (r & Hr & Hiff & _);
    try assumption; try lia.
  apply for_each_none. rewrite Hr. f_equal. apply Hiff, Hnone.
Qed.

Lemma for_each_clear_bit_none_witness :
  metal_bitmap_for_each_clear_bit ILP32 [7] 3 4 = ([], Exited).
Proof.
  apply (for_each_clear_bit_none ILP32 [7] 3 4).
  - vm_compute. split; discriminate.
  - vm_compute. discriminate.
  - intros i Hi. unfold narrow. change (ulong_bits ILP32) with 32.
    change (int_bits ILP32) with 32. apply Z.mod_pos_bound. lia.
  - intros i Hi. assert (i = 0 \/ i = 1 \/ i = 2) as [-> | [-> | ->]] by lia; discriminate.
Defined.

(** * Iterating with a body that flips the bit it is given *)






Section Flip.
Context (dm : data_model) (v : bool) (max : Z).
Context (scan : list Z -> Z -> outcome Z).
Context (flip : list Z -> Z -> outcome (list Z)).
Hypothesis Hint : max <= INT_MAX dm + 1.
(** [scan] finds the first bit of value [v] from its start index on. *)
Hypothesis Hscan : forall bitmap start,
  0 <= start <= max -> max <= capacity dm bitmap ->
  exists r, scan bitmap start = Returns r /\
    first_bit_with dm bitmap v start max r.
(** [flip] writes the other value to the bit it is given, and to no other. *)
Hypothesis Hflip : forall bitmap b,
  addressable dm bitmap b ->
  exists bitmap', flip bitmap b = Returns bitmap' /\
    length bitmap' = length bitmap /\
    stored_bit dm bitmap' b = Some (negb v) /\
    forall c, 0 <= c -> c <> b -> stored_bit dm bitmap' c = stored_bit dm bitmap c.



End Flip.





(** * Rounding divisions and sizing *)

Lemma div_round_up_value (dm : data_model) (num den : Z) :
  0 < den -> 0 <= num <= SIZE_MAX dm + 1 - den ->
  metal_div_round_up dm num den = (num + den - 1) / den.
Proof.
  intros Hden Hnum. unfold metal_div_round_up, metal_div_round_down.
  rewrite round_up_no_wrap by assumption. reflexivity.
Qed.

(** Where the sum [num + den - 1] fits [size_t], [metal_div_round_up] is the
    ceiling of the quotient: it brackets [num] together with
    [metal_div_round_down], equals it where [den] divides [num] and exceeds
    it by one where not. *)
Theorem div_round_up_down (dm : data_model) (num den : Z) :
  0 < den ->
  0 <= num <= SIZE_MAX dm + 1 - den ->
  den * metal_div_round_down num den <= num <= den * metal_div_round_up dm num den /\
  metal_div_round_up dm num den = ceiling num den /\
  metal_div_round_up dm num den
  = metal_div_round_down num den + (if num mod den =? 0 then 0 else 1).
Proof.
  intros Hden Hnum. rewrite div_round_up_value by assumption.
  unfold metal_div_round_down, ceiling.
  destruct (Z.eqb_spec (num mod den) 0) as [Hz|Hnz];
    repeat split; Z.div_mod_to_equations; nia.
Qed.

Lemma div_round_up_down_witness :
  3 * metal_div_round_down 10 3 <= 10 <= 3 * metal_div_round_up LP64 10 3 /\
  metal_div_round_up LP64 10 3 = ceiling 10 3 /\
  metal_div_round_up LP64 10 3
  = metal_div_round_down 10 3 + (if 10 mod 3 =? 0 then 0 else 1).
Proof.
  apply (div_round_up_down LP64 10 3).
  - lia.
  - vm_compute. split; discriminate.
Defined.

(** A storage of [metal_bitmap_longs(n)] words holds [n] bits with less
    than a word to spare, so that every index below [n] that an [int] holds
    addresses it. *)
Theorem bitmap_longs_addressable (dm : data_model) (n : Z) (bitmap : list Z) :
  0 <= n <= SIZE_MAX dm + 1 - METAL_BITS_PER_ULONG dm ->
  Z.of_nat (length bitmap) = metal_bitmap_longs dm n ->
  n <= capacity dm bitmap < n + ulong_bits dm /\
  forall b, 0 <= b < n -> b <= INT_MAX dm -> addressable dm bitmap b.
Proof.
  intros Hn Hlen. pose proof (ulong_bits_pos dm) as HW.
  assert (n <= capacity dm bitmap < n + ulong_bits dm) as Hcap.
  { unfold capacity. rewrite Hlen. unfold metal_bitmap_longs.
    rewrite div_round_up_value; rewrite METAL_BITS_PER_ULONG_eq in *; try lia.
    Z.div_mod_to_equations. nia. }
  split; [assumption|]. intros b Hb Hint. unfold addressable. lia.
Qed.

Lemma bitmap_longs_addressable_witness :
  16 <= capacity LP64 [0] < 16 + ulong_bits LP64 /\
  forall b, 0 <= b < 16 -> b <= INT_MAX LP64 -> addressable LP64 [0] b.
Proof.
  apply (bitmap_longs_addressable LP64 16 [0]).
  - vm_compute. split; discriminate.
  - reflexivity.
Defined.

(** * Alignment *)

Lemma wrap_small (bits z : Z) : 0 <= z < 2 ^ bits -> wrap bits z = z.
Proof. intros H. apply Z.mod_small. assumption. Qed.

Lemma wrap_range (bits z : Z) : 0 <= bits -> 0 <= wrap bits z < 2 ^ bits.
Proof. intros H. apply Z.mod_pos_bound, Z.pow_pos_nonneg; lia. Qed.

Lemma pow2_le_max (ws wa : Z) :
  2 ^ ws <= 2 ^ Z.max ws wa /\ 2 ^ wa <= 2 ^ Z.max ws wa.
Proof. split; apply Z.pow_le_mono_r; lia. Qed.

(** What [metal_align_down] computes for a power of two: the multiple of
    [align] below the part of [size] that fits the type of [align]. *)
Lemma align_down_value (ws wa size k : Z) :
  0 <= ws -> 0 <= k < wa -> 0 <= size < 2 ^ ws ->
  metal_align_down ws wa size (2 ^ k) = 2 ^ k * ((size mod 2 ^ wa) / 2 ^ k).
Proof.
  intros Hws Hk Hsize. unfold metal_align_down. cbv zeta.
  pose proof (pow2_le_max ws wa) as [Hs Ha].
  assert (0 < 2 ^ k < 2 ^ wa) as Hpow
    by (split; [apply Z.pow_pos_nonneg; lia | apply Z.pow_lt_mono_r; lia]).
  rewrite (wrap_small (Z.max ws wa) size) by lia.
  rewrite (wrap_small wa (2 ^ k - 1)) by lia.
  rewrite (wrap_small (Z.max ws wa)) by (pose proof (wrap_range wa (Z.lnot (2 ^ k - 1))); lia).
  unfold wrap. rewrite <- Z.land_ones by lia.
  replace (2 ^ k - 1) with (Z.ones k) by (rewrite Z.ones_equiv; lia).
  rewrite (Z.land_comm (Z.lnot _)), Z.land_assoc, Z.land_ones by lia.
  rewrite <- Z.ldiff_land, Z.ldiff_ones_r by lia.
  rewrite Z.shiftl_mul_pow2, Z.shiftr_div_pow2 by lia. lia.
Qed.

Lemma align_up_value (w size k : Z) :
  0 <= k < w -> 0 <= size -> size + 2 ^ k - 1 < 2 ^ w ->
  metal_align_up w w size (2 ^ k) = 2 ^ k * ((size + 2 ^ k - 1) / 2 ^ k).
Proof.
  intros Hk Hsize Hfit. unfold metal_align_up. cbv zeta.
  rewrite Z.max_id. unfold wrap at 1 2.
  rewrite Zminus_mod_idemp_l.
  assert (0 < 2 ^ k) by (apply Z.pow_pos_nonneg; lia).
  rewrite (Z.mod_small (size + 2 ^ k - 1)) by lia.
  rewrite align_down_value by lia.
  rewrite (Z.mod_small (size + 2 ^ k - 1)) by lia. reflexivity.
Qed.

(** [metal_align_down] on a power of two, with [size] of a type no wider
    than that of [align]: the result is the largest multiple of [align] not
    above [size]. *)
Theorem align_down_largest_multiple (ws wa size k : Z) :
  0 <= ws <= wa ->
  0 <= k < wa ->
  0 <= size < 2 ^ ws ->
  metal_align_down ws wa size (2 ^ k) mod 2 ^ k = 0 /\
  metal_align_down ws wa size (2 ^ k) <= size
  < metal_align_down ws wa size (2 ^ k) + 2 ^ k.
Proof.
  intros Hws Hk Hsize. rewrite align_down_value by lia.
  assert (0 < 2 ^ k) by (apply Z.pow_pos_nonneg; lia).
  assert (2 ^ ws <= 2 ^ wa) by (apply Z.pow_le_mono_r; lia).
  rewrite (Z.mod_small size) by lia.
  split; [rewrite Z.mul_comm; apply Z.mod_mul; lia|].
  Z.div_mod_to_equations. nia.
Qed.

Lemma align_down_largest_multiple_witness :
  metal_align_down 64 64 4100 (2 ^ 12) mod 2 ^ 12 = 0 /\
  metal_align_down 64 64 4100 (2 ^ 12) <= 4100
  < metal_align_down 64 64 4100 (2 ^ 12) + 2 ^ 12.
Proof.
  apply (align_down_largest_multiple 64 64 4100 12); [lia | lia |].
  vm_compute. split; [discriminate | reflexivity].
Defined.



(** [metal_align_up] on a power of two, both operands of one unsigned type,
    where [size + align - 1] fits the type: the result is the smallest
    multiple of [align] not below [size]. *)
Theorem align_up_smallest_multiple (w size k : Z) :
  0 <= k < w ->
  0 <= size ->
  size + 2 ^ k - 1 < 2 ^ w ->
  metal_align_up w w size (2 ^ k) mod 2 ^ k = 0 /\
  size <= metal_align_up w w size (2 ^ k) < size + 2 ^ k.
Proof.
  intros Hk Hsize Hfit. rewrite align_up_value by lia.
  assert (0 < 2 ^ k) by (apply Z.pow_pos_nonneg; lia).
  split; [rewrite Z.mul_comm; apply Z.mod_mul; lia|].
  Z.div_mod_to_equations. nia.
Qed.

Lemma align_up_smallest_multiple_witness :
  metal_align_up 32 32 4097 (2 ^ 12) mod 2 ^ 12 = 0 /\
  4097 <= metal_align_up 32 32 4097 (2 ^ 12) < 4097 + 2 ^ 12.
Proof.
  apply (align_up_smallest_multiple 32 4097 12); [lia | lia |].
  vm_compute. reflexivity.
Defined.





(** The pointer macros on a power-of-two alignment: [metal_ptr_align_down]
    gives the highest aligned address not above [ptr], and
    [metal_ptr_align_up], where [ptr + align - 1] is an address, the lowest
    aligned address not below [ptr]. *)
Theorem ptr_align (dm : data_model) (ptr k : Z) :
  0 <= k < uintptr_bits dm ->
  0 <= ptr < 2 ^ uintptr_bits dm ->
  (metal_ptr_align_down dm ptr (2 ^ k) mod 2 ^ k = 0 /\
   metal_ptr_align_down dm ptr (2 ^ k) <= ptr
   < metal_ptr_align_down dm ptr (2 ^ k) + 2 ^ k) /\
  (ptr + 2 ^ k - 1 < 2 ^ uintptr_bits dm ->
   metal_ptr_align_up dm ptr (2 ^ k) mod 2 ^ k = 0 /\
   ptr <= metal_ptr_align_up dm ptr (2 ^ k) < ptr + 2 ^ k).
Proof.
  intros Hk Hptr.
  assert (0 < 2 ^ k < 2 ^ uintptr_bits dm) as Hpow
    by (split; [apply Z.pow_pos_nonneg; lia | apply Z.pow_lt_mono_r; lia]).
  unfold metal_ptr_align_down, metal_ptr_align_up, to_uintptr.
  rewrite !(wrap_small _ ptr), !(wrap_small _ (2 ^ k)) by lia.
  split.
  - rewrite align_down_value by lia. rewrite (Z.mod_small ptr) by lia.
    split; [rewrite Z.mul_comm; apply Z.mod_mul; lia|].
    Z.div_mod_to_equations. nia.
  - intros Hfit. rewrite align_up_value by lia.
    split; [rewrite Z.mul_comm; apply Z.mod_mul; lia|].
    Z.div_mod_to_equations. nia.
Qed.

Lemma ptr_align_witness :
  (metal_ptr_align_down LP64 4100 (2 ^ 4) mod 2 ^ 4 = 0 /\
   metal_ptr_align_down LP64 4100 (2 ^ 4) <= 4100
   < metal_ptr_align_down LP64 4100 (2 ^ 4) + 2 ^ 4) /\
  (metal_ptr_align_up LP64 4100 (2 ^ 4) mod 2 ^ 4 = 0 /\
   4100 <= metal_ptr_align_up LP64 4100 (2 ^ 4) < 4100 + 2 ^ 4).
Proof.
  destruct (ptr_align LP64 4100 4) as [Hdown Hup].
  - vm_compute. split; [discriminate | reflexivity].
  - vm_compute. split; [discriminate | reflexivity].
  - split; [exact Hdown | apply Hup; vm_compute; reflexivity].
Defined.

(** * More on [metal_log2] *)

Lemma zero_or_power_of_two_below (dm : data_model) (inp : Z) :
  inp < 2 ^ ulong_bits dm -> zero_or_power_of_two inp ->
  inp = 0 \/ exists k, 0 <= k < ulong_bits dm /\ inp = 2 ^ k.
Proof.
  intros Hlt [->|(k & Hk & ->)]; [left; reflexivity|]. right. exists k.
  split; [|reflexivity]. split; [assumption|].
  apply (Z.pow_lt_mono_r_iff 2); [lia | pose proof (ulong_bits_pos dm); lia | assumption].
Qed.

(** A number that shares no bit with its predecessor is a power of two. *)
Lemma land_pred_zero (x : Z) :
  0 < x -> Z.land x (x - 1) = 0 -> x = 2 ^ Z.log2 x.
Proof.
  intros Hx Hland. pose proof (Z.log2_spec x Hx) as [Hlo Hhi].
  pose proof (Z.log2_nonneg x) as Hk.
  destruct (Z.eq_dec x (2 ^ Z.log2 x)) as [|Hne]; [assumption|]. exfalso.
  assert (Z.log2 (x - 1) = Z.log2 x) as Hsame.
  { apply Z.log2_unique; [assumption | lia]. }
  assert (Z.testbit (Z.land x (x - 1)) (Z.log2 x) = true) as Hbit.
  { rewrite Z.land_spec, Z.bit_log2 by assumption.
    rewrite <- Hsame. rewrite Z.bit_log2; [reflexivity|].
    pose proof (Z.pow_pos_nonneg 2 (Z.log2 x)). lia. }
  rewrite Hland, Z.bits_0 in Hbit. discriminate.
Qed.

Lemma metal_log2_assertion_only (dm : data_model) (inp : Z) :
  0 <= inp < 2 ^ ulong_bits dm ->
  metal_log2_assertion dm inp = true ->
  inp = 0 \/ exists k, 0 <= k < ulong_bits dm /\ inp = 2 ^ k.
Proof.
  intros Hinp Hassert. apply (zero_or_power_of_two_below dm); [lia|].
  unfold metal_log2_assertion in Hassert. apply Z.eqb_eq in Hassert.
  destruct (Z.eq_dec inp 0) as [->|Hnz]; [left; reflexivity|]. right.
  unfold to_ulong in Hassert. rewrite (wrap_small _ (inp - 1)) in Hassert by lia.
  exists (Z.log2 inp). split; [apply Z.log2_nonneg|].
  apply land_pred_zero; [lia | assumption].
Qed.

Lemma metal_log2_assertion_on (dm : data_model) (inp : Z) :
  inp < 2 ^ ulong_bits dm ->
  zero_or_power_of_two inp -> metal_log2_assertion dm inp = true.
Proof.
  intros Hinp Hzp.
  destruct (zero_or_power_of_two_below dm inp Hinp Hzp) as [->|(k & Hk & ->)];
    [destruct dm; reflexivity|].
  apply metal_log2_assertion_pow2. assumption.
Qed.

(** The asserted condition holds exactly on zero and the powers of two. *)
Theorem metal_log2_assertion_iff (dm : data_model) (inp : Z) :
  0 <= inp < 2 ^ ulong_bits dm ->
  (metal_log2_assertion dm inp = true <-> zero_or_power_of_two inp).
Proof.
  intros Hinp. split.
  - intros Hassert.
    destruct (metal_log2_assertion_only dm inp Hinp Hassert) as [->|(k & Hk & ->)].
    + left. reflexivity.
    + right. exists k. split; [lia | reflexivity].
  - apply metal_log2_assertion_on. lia.
Qed.

Lemma metal_log2_assertion_iff_witness :
  metal_log2_assertion LP64 96 = true <-> zero_or_power_of_two 96.
Proof.
  apply (metal_log2_assertion_iff LP64 96). vm_compute. split; [discriminate | reflexivity].
Defined.

(** With the assertion compiled in, [metal_log2] never reaches the
    undefined shift: on zero it returns 0, on a power of two its exponent,
    and on every other value of [unsigned long] the assertion fails. *)
Theorem metal_log2_checked (dm : data_model) (inp : Z) :
  0 <= inp < 2 ^ ulong_bits dm ->
  (inp = 0 /\ metal_log2 dm false inp = Returns 0) \/
  (exists k, 0 <= k < ulong_bits dm /\ inp = 2 ^ k /\
             metal_log2 dm false inp = Returns k) \/
  (~ zero_or_power_of_two inp /\ metal_log2 dm false inp = AssertFailed).
Proof.
  intros Hinp. destruct (metal_log2_assertion dm inp) eqn:Hassert.
  - destruct (metal_log2_assertion_only dm inp Hinp Hassert) as [->|(k & Hk & ->)].
    + left. split; [reflexivity | destruct dm; reflexivity].
    + right. left. exists k. split; [assumption|]. split; [reflexivity|].
      apply metal_log2_pow2. assumption.
  - right. right. split.
    + intros Hzp. apply (metal_log2_assertion_on dm) in Hzp; [|lia]. congruence.
    + unfold metal_log2. rewrite Hassert. reflexivity.
Qed.

Lemma metal_log2_checked_witness :
  (96 = 0 /\ metal_log2 LP64 false 96 = Returns 0) \/
  (exists k, 0 <= k < ulong_bits LP64 /\ 96 = 2 ^ k /\
             metal_log2 LP64 false 96 = Returns k) \/
  (~ zero_or_power_of_two 96 /\ metal_log2 LP64 false 96 = AssertFailed).
Proof.
  apply (metal_log2_checked LP64 96). vm_compute. split; [discriminate | reflexivity].
Defined.

Lemma metal_log2_loop_up (dm : data_model) (inp : Z) (fuel : nat) (result : Z) :
  0 < inp -> Z.log2_up inp < ulong_bits dm ->
  0 <= result <= Z.log2_up inp ->
  (Z.to_nat (Z.log2_up inp - result) <= fuel)%nat ->
  metal_log2_loop dm inp fuel result = Returns (Z.log2_up inp).
Proof.
  intros Hinp Hup. revert result.
  assert (forall r, 0 <= r < Z.log2_up inp -> 2 ^ r < inp) as Hbelow.
  { intros r Hr. destruct (Z.eq_dec inp 1) as [->|]; [cbn in Hr; lia|].
    pose proof (Z.log2_up_spec inp ltac:(lia)) as [Hlo _].
    apply Z.le_lt_trans with (2 ^ Z.pred (Z.log2_up inp)); [|assumption].
    apply Z.pow_le_mono_r; lia. }
  assert (inp <= 2 ^ Z.log2_up inp) as Habove.
  { destruct (Z.eq_dec inp 1) as [->|]; [cbn; lia|].
    apply (Z.log2_up_spec inp). lia. }
  induction fuel as [|fuel IH]; intros result Hr Hfuel; cbn [metal_log2_loop].
  - assert (result = Z.log2_up inp) as -> by lia.
    rewrite metal_bit_pow2 by lia. cbn.
    destruct (Z.ltb_spec (2 ^ Z.log2_up inp) inp); [lia | reflexivity].
  - rewrite metal_bit_pow2 by lia. cbn.
    destruct (Z.ltb_spec (2 ^ result) inp) as [Hlt|Hge].
    + assert (result < Z.log2_up inp) as Hrl.
      { destruct (Z.eq_dec result (Z.log2_up inp)) as [->|]; lia. }
      assert (to_ulong dm (result + 1) = result + 1) as ->.
      { apply wrap_small. pose proof (Z.pow_gt_lin_r 2 (ulong_bits dm)). lia. }
      apply IH; lia.
    + destruct (Z.eq_dec result (Z.log2_up inp)) as [->|Hne]; [reflexivity|].
      pose proof (Hbelow result). lia.
Qed.

(** With the assertion compiled out, on a value that is not above
    [2^(W-1)], [W] the width of [unsigned long], [metal_log2] returns the
    exponent of the least power of two not below the value. *)
Theorem metal_log2_unchecked (dm : data_model) (inp : Z) :
  0 < inp <= 2 ^ (ulong_bits dm - 1) ->
  exists r, metal_log2 dm true inp = Returns r /\
    r = Z.log2_up inp /\ inp <= 2 ^ r /\ (0 < r -> 2 ^ (r - 1) < inp).
Proof.
  intros Hinp. pose proof (ulong_bits_pos dm) as HW.
  assert (Z.log2_up inp < ulong_bits dm) as Hup.
  { assert (Z.log2_up inp <= ulong_bits dm - 1); [|lia].
    apply Z.log2_up_le_pow2; lia. }
  pose proof (Z.log2_up_nonneg inp) as Hnn.
  exists (Z.log2_up inp). split.
  - unfold metal_log2. cbn. apply metal_log2_loop_up; lia.
  - split; [reflexivity|].
    destruct (Z.eq_dec inp 1) as [->|]; [cbn; split; lia|].
    pose proof (Z.log2_up_spec inp ltac:(lia)) as [Hlo Hhi].
    split; [assumption|]. intros _. replace (Z.log2_up inp - 1) with (Z.pred (Z.log2_up inp)) by lia.
    assumption.
Qed.

Lemma metal_log2_unchecked_witness :
  exists r, metal_log2 LP64 true 4097 = Returns r /\
    r = Z.log2_up 4097 /\ 4097 <= 2 ^ r /\ (0 < r -> 2 ^ (r - 1) < 4097).
Proof.
  apply (metal_log2_unchecked LP64 4097). vm_compute. split; [reflexivity | discriminate].
Defined.

Lemma metal_log2_loop_over (dm : data_model) (inp : Z) (fuel : nat) (result : Z) :
  2 ^ (ulong_bits dm - 1) < inp ->
  0 <= result <= ulong_bits dm ->
  (Z.to_nat (ulong_bits dm - result) <= fuel)%nat ->
  metal_log2_loop dm inp fuel result = Undefined.
Proof.
  intros Hinp. revert result.
  assert (forall r, 0 <= r < ulong_bits dm -> 2 ^ r < inp) as Hbelow.
  { intros r Hr. apply Z.le_lt_trans with (2 ^ (ulong_bits dm - 1)); [|assumption].
    apply Z.pow_le_mono_r; lia. }
  assert (metal_bit dm (ulong_bits dm) = Undefined) as Htop.
  { unfold metal_bit. rewrite Z.ltb_irrefl, andb_false_r. reflexivity. }
  induction fuel as [|fuel IH]; intros result Hr Hfuel; cbn [metal_log2_loop].
  - assert (result = ulong_bits dm) as -> by lia. rewrite Htop. reflexivity.
  - destruct (Z.eq_dec result (ulong_bits dm)) as [->|Hne]; [rewrite Htop; reflexivity|].
    rewrite metal_bit_pow2 by lia. cbn.
    destruct (Z.ltb_spec (2 ^ result) inp) as [Hlt|Hge];
      [|pose proof (Hbelow result); lia].
    assert (to_ulong dm (result + 1) = result + 1) as ->.
    { apply wrap_small. pose proof (Z.pow_gt_lin_r 2 (ulong_bits dm)). lia. }
    apply IH; lia.
Qed.

(** With the assertion compiled out, on a value above [2^(W-1)]
    [metal_log2] runs into the shift by the width of [unsigned long], which
    is undefined. *)
Theorem metal_log2_unchecked_over (dm : data_model) (inp : Z) :
  2 ^ (ulong_bits dm - 1) < inp ->
  metal_log2 dm true inp = Undefined.
Proof.
  intros Hinp. unfold metal_log2. cbn.
  apply metal_log2_loop_over; [assumption | pose proof (ulong_bits_pos dm); lia | lia].
Qed.

Lemma metal_log2_unchecked_over_witness :
  metal_log2 ILP32 true 2147483649 = Undefined.
Proof.
  apply (metal_log2_unchecked_over ILP32 2147483649). vm_compute. reflexivity.
Defined.

(** * More on clearing *)

(** For all indices [b] and [c] within the storage with [c <> b],
    [metal_bitmap_clear_bit] on [b] leaves the answer of
    [metal_bitmap_is_bit_set] on [c] as it was. *)
Theorem clear_bit_frame (dm : data_model) (bitmap : list Z) (b c : Z) :
  addressable dm bitmap b ->
  addressable dm bitmap c ->
  c <> b ->
  exists bitmap', metal_bitmap_clear_bit dm bitmap b = Returns bitmap' /\
    metal_bitmap_is_bit_set dm bitmap' c = metal_bitmap_is_bit_set dm bitmap c.
Proof.
  intros Hb Hc Hne.
  destruct (addressable_word _ _ _ Hb) as [w Hw].
  destruct (addressable_word _ _ _ Hc) as [wc Hwc].
  eexists. split; [apply (clear_bit_addressable dm bitmap b w Hb Hw)|].
  rewrite (is_bit_set_addressable dm bitmap c wc Hc Hwc).
  pose proof (position_range dm b) as [Hp _].
  destruct (decide (Z.to_nat (b / ulong_bits dm) = Z.to_nat (c / ulong_bits dm)))
    as [Hsame|Hother].
  - assert (wc = w) as -> by congruence.
    rewrite (is_bit_set_addressable dm _ c
               (Z.land w (ulong_not dm (2 ^ (b mod ulong_bits dm))))).
    + rewrite testbit_clear_other; [reflexivity | assumption | apply position_range |].
      intros Hpos. apply Hne. symmetry.
      apply (index_split dm b c); [apply Hb | apply Hc | assumption..].
    + apply addressable_insert, Hc.
    + rewrite Hsame. apply list_lookup_insert_eq.
      apply lookup_lt_Some in Hwc. assumption.
  - rewrite (is_bit_set_addressable dm _ c wc); [reflexivity | |].
    + apply addressable_insert, Hc.
    + rewrite list_lookup_insert_ne by assumption. assumption.
Qed.

Lemma clear_bit_frame_witness :
  exists bitmap', metal_bitmap_clear_bit ILP32 [255; 255] 33 = Returns bitmap' /\
    metal_bitmap_is_bit_set ILP32 bitmap' 1
    = metal_bitmap_is_bit_set ILP32 [255; 255] 1.
Proof.
  apply (clear_bit_frame ILP32 [255; 255] 33 1).
  - unfold addressable. vm_compute. repeat split; discriminate.
  - unfold addressable. vm_compute. repeat split; discriminate.
  - discriminate.
Defined.

Lemma clear_twice_word (dm : data_model) (w p : Z) :
  Z.land (Z.land w (ulong_not dm (2 ^ p))) (ulong_not dm (2 ^ p))
  = Z.land w (ulong_not dm (2 ^ p)).
Proof. rewrite <- Z.land_assoc, Z.land_diag. reflexivity. Qed.

(** Clearing a bit twice leaves the storage as clearing it once does. *)
Theorem clear_bit_idempotent (dm : data_model) (bitmap : list Z) (b : Z) :
  addressable dm bitmap b ->
  exists bitmap', metal_bitmap_clear_bit dm bitmap b = Returns bitmap' /\
    metal_bitmap_clear_bit dm bitmap' b = Returns bitmap'.
Proof.
  intros Hb. destruct (addressable_word _ _ _ Hb) as [w Hw].
  pose proof (lookup_lt_Some _ _ _ Hw) as Hlen.
  eexists. split; [apply (clear_bit_addressable dm bitmap b w Hb Hw)|].
  rewrite (clear_bit_addressable dm _ b
             (Z.land w (ulong_not dm (2 ^ (b mod ulong_bits dm))))).
  - rewrite list_insert_insert_eq, clear_twice_word. reflexivity.
  - apply addressable_insert, Hb.
  - apply list_lookup_insert_eq. assumption.
Qed.

Lemma clear_bit_idempotent_witness :
  exists bitmap', metal_bitmap_clear_bit LP64 [255; 255] 66 = Returns bitmap' /\
    metal_bitmap_clear_bit LP64 bitmap' 66 = Returns bitmap'.
Proof.
  apply (clear_bit_idempotent LP64 [255; 255] 66).
  unfold addressable. vm_compute. repeat split; discriminate.
Defined.
